(** * Vibrator HAL for the aw8697 haptic driver: model of [vibrator/Vibrator.cpp]

    The C++ methods of [aidl::android::hardware::vibrator::Vibrator] are
    embedded as Rocq functions.  Integers are [Z] (with the 32-bit unsigned
    wrap-around of [totalDuration] written out), [float] values are IEEE-754
    values in the sense of [SpecFloat] (so comparisons with NaN behave as in
    C++), an [std::ostringstream] is the sequence of operands inserted into it,
    and the effects of a call (sysfs writes, detached threads) are appended to
    an explicit chronological trace. *)

From Stdlib Require Import ZArith List String Bool Lia.
From Stdlib Require Import Floats.SpecFloat.
From Stdlib Require Import Permutation.
Import ListNotations.
Local Open Scope Z_scope.

(* ------------------------------------------------------------------ *)
(** ** Scalars *)

(** C++ [float]: binary32, i.e. a [spec_float] valid for precision 24 and
    maximal exponent 128. *)
Definition float : Type := spec_float.

Definition is_binary32 (f : float) : bool := valid_binary 24 128 f.

(** [a < b], [a > b] and [a == b] on [float]; all three are [false] as soon
    as one operand is NaN. *)
Definition flt (a b : float) : bool := SFltb a b.
Definition fgt (a b : float) : bool := SFltb b a.
Definition feq (a b : float) : bool := SFeqb a b.

(** [a <= b] on [float] (not used by the code; used to state ranges). *)
Definition fle (a b : float) : bool := SFleb a b.

Definition NaN : float := S754_nan.

(** Conversion to [uint32_t]. *)
Definition uint32 (z : Z) : Z := z mod 2 ^ 32.

(* ------------------------------------------------------------------ *)
(** ** AIDL types used by the HAL

    The enumerations are [int32_t]-backed enum classes; an object of such a
    type can hold any 32-bit value, which is why the code checks membership
    in the supported sets.  They are modelled by their underlying value, with
    the numbering of the [android.hardware.vibrator] interface. *)

Module Effect.
Definition t : Type := Z.
Definition CLICK : t := 0.
Definition DOUBLE_CLICK : t := 1.
Definition TICK : t := 2.
Definition THUD : t := 3.
Definition POP : t := 4.
Definition HEAVY_CLICK : t := 5.
Definition RINGTONE_1 : t := 6.
Definition RINGTONE_15 : t := 20.
Definition TEXTURE_TICK : t := 21.
End Effect.

Module EffectStrength.
Definition t : Type := Z.
Definition LIGHT : t := 0.
Definition MEDIUM : t := 1.
Definition STRONG : t := 2.
End EffectStrength.

Module CompositePrimitive.
Definition t : Type := Z.
Definition NOOP : t := 0.
Definition CLICK : t := 1.
Definition THUD : t := 2.
Definition SPIN : t := 3.
Definition QUICK_RISE : t := 4.
Definition SLOW_RISE : t := 5.
Definition QUICK_FALL : t := 6.
Definition LIGHT_TICK : t := 7.
Definition LOW_TICK : t := 8.
End CompositePrimitive.

Module Braking.
Definition t : Type := Z.
Definition NONE : t := 0.
Definition CLAB : t := 1.
End Braking.

Module CompositeEffect.
Record t : Type := mk {
    delayMs : Z;
    primitive : CompositePrimitive.t;
    scale : float
  }.
End CompositeEffect.

Module ActivePwle.
Record t : Type := mk {
    startAmplitude : float;
    startFrequency : float;
    endAmplitude : float;
    endFrequency : float;
    duration : Z
  }.
End ActivePwle.

Module BrakingPwle.
Record t : Type := mk {
    braking : Braking.t;
    duration : Z
  }.
End BrakingPwle.

(** The AIDL union [PrimitivePwle]; [getTag] is the constructor. *)
Inductive PrimitivePwle : Type :=
| active (a : ActivePwle.t)
| braking (b : BrakingPwle.t).

(** Capability bits of [IVibrator]. *)
Module IVibrator.
Definition CAP_ON_CALLBACK : Z := Z.shiftl 1 0.
Definition CAP_PERFORM_CALLBACK : Z := Z.shiftl 1 1.
Definition CAP_COMPOSE_EFFECTS : Z := Z.shiftl 1 5.
Definition CAP_FREQUENCY_CONTROL : Z := Z.shiftl 1 9.
Definition CAP_COMPOSE_PWLE_EFFECTS : Z := Z.shiftl 1 10.
End IVibrator.

(** [ndk::ScopedAStatus], reduced to what the HAL builds: [ok()] or
    [fromExceptionCode(code)]. *)
Inductive ScopedAStatus : Type :=
| ok
| fromExceptionCode (code : Z).

Definition EX_ILLEGAL_ARGUMENT : Z := -3.
Definition EX_UNSUPPORTED_OPERATION : Z := -7.

Definition isOk (s : ScopedAStatus) : bool :=
  match s with ok => true | fromExceptionCode _ => false end.

(** A [std::shared_ptr<IVibratorCallback>]: [None] is [nullptr], [Some c]
    designates the remote callback object [c]. *)
Definition IVibratorCallback : Type := nat.

(* ------------------------------------------------------------------ *)
(** ** Constants of the translation unit *)

Definition COMPOSE_DELAY_MAX_MS : Z := 1000.
Definition COMPOSE_SIZE_MAX : Z := 256.
Definition COMPOSE_PWLE_SIZE_MAX : Z := 127.

Definition COMPOSE_PWLE_PRIMITIVE_DURATION_MAX_MS : Z := 16383.
Definition PWLE_LEVEL_MIN : float := S754_zero false.
Definition PWLE_LEVEL_MAX : float := S754_finite false 8388608 (-23).
Definition PWLE_FREQUENCY_MIN_HZ : float := S754_finite false 9175040 (-16).
Definition RESONANT_FREQUENCY_HZ : float := S754_finite false 9830400 (-16).
Definition PWLE_FREQUENCY_MAX_HZ : float := S754_finite false 10485760 (-16).

(** [0.0f], [1.0f] of [compose], and the [-1.0] of
    [resetPreviousEndAmplitudeEndFrequency]. *)
Definition f_zero : float := S754_zero false.
Definition f_one : float := S754_finite false 8388608 (-23).
Definition f_minus_one : float := S754_finite true 8388608 (-23).
Definition f_half : float := S754_finite false 8388608 (-24).

Definition HAPTIC_NODE : string := "/sys/bus/i2c/drivers/aw8697_haptic/2-005a/".
Definition ACTIVATE_NODE : string := HAPTIC_NODE ++ "activate".
Definition DURATION_NODE : string := HAPTIC_NODE ++ "duration".
Definition INDEX_NODE : string := HAPTIC_NODE ++ "index".

Definition WAVEFORM_TICK_EFFECT_MS : Z := 10.
Definition WAVEFORM_TEXTURE_TICK_EFFECT_MS : Z := 20.
Definition WAVEFORM_CLICK_EFFECT_MS : Z := 15.
Definition WAVEFORM_HEAVY_CLICK_EFFECT_MS : Z := 30.
Definition WAVEFORM_DOUBLE_CLICK_EFFECT_MS : Z := 60.
Definition WAVEFORM_THUD_EFFECT_MS : Z := 35.
Definition WAVEFORM_POP_EFFECT_MS : Z := 15.

Definition WAVEFORM_TICK_EFFECT_INDEX : Z := 1.
Definition WAVEFORM_TEXTURE_TICK_EFFECT_INDEX : Z := 4.
Definition WAVEFORM_CLICK_EFFECT_INDEX : Z := 2.
Definition WAVEFORM_HEAVY_CLICK_EFFECT_INDEX : Z := 5.
Definition WAVEFORM_DOUBLE_CLICK_EFFECT_INDEX : Z := 6.
Definition WAVEFORM_THUD_EFFECT_INDEX : Z := 7.

(* ------------------------------------------------------------------ *)
(** ** Effects of a call

    A detached [std::thread] is recorded with the values its lambda
    captures; a write to a sysfs node with its path and value.  [World] is
    the chronological trace of what the HAL has done so far. *)

Inductive Thread : Type :=
| OnThread (timeoutMs : Z) (callback : IVibratorCallback)
| PerformThread (callback : IVibratorCallback)
| ComposeThread (composite : list CompositeEffect.t)
                (callback : option IVibratorCallback)
| ComposePwleThread (totalDuration : Z) (callback : option IVibratorCallback).

Inductive Action : Type :=
| FileWrite (path : string) (value : Z)
| Detach (t : Thread).

Definition World : Type := list Action.

Definition is_FileWrite (a : Action) : bool :=
  match a with FileWrite _ _ => true | Detach _ => false end.

(** The sysfs writes of a trace, in order. *)
Definition writes (w : World) : list Action := filter is_FileWrite w.

(** [write_haptic_node(path, value)]. *)
Definition write_haptic_node (path : string) (value : Z) (w : World) : World :=
  w ++ [FileWrite path value].

Definition detach (t : Thread) (w : World) : World := w ++ [Detach t].

(** Body of a loop iteration that may [return] from the enclosing method. *)
Inductive flow (A : Type) : Type :=
| Next (a : A)
| Return (s : ScopedAStatus).
Arguments Next {A} a.
Arguments Return {A} s.

Definition flow_bind {A B : Type} (m : flow A) (k : A -> flow B) : flow B :=
  match m with
  | Next a => k a
  | Return s => Return s
  end.

Notation "x <- m ;; k" := (flow_bind m (fun x => k))
  (at level 100, m at next level, right associativity).

(** [for (auto &e : l) body], threading the local state [st]. *)
Fixpoint for_each {A S : Type} (body : S -> A -> flow S) (st : S) (l : list A)
  : flow S :=
  match l with
  | [] => Next st
  | e :: l' => st' <- body st e ;; for_each body st' l'
  end.

(** [std::vector::size()]. *)
Definition size {A : Type} (l : list A) : Z := Z.of_nat (List.length l).

(** [std::find(v.begin(), v.end(), x) == v.end()]. *)
Definition not_found (x : Z) (v : list Z) : bool :=
  negb (existsb (Z.eqb x) v).

(* ------------------------------------------------------------------ *)
(** ** [std::ostringstream]

    The stream is the sequence of operands inserted with [<<]; the code never
    calls [str()] on it, so no number formatting is involved. *)

Inductive Inserted : Type :=
| InsStr (s : string)
| InsInt (n : Z)
| InsFloat (f : float).

Definition ostringstream : Type := list Inserted.

(** The overloads of [operator<<] the HAL uses. *)
Class Insertable (T : Type) : Type := inserted : T -> Inserted.
#[export] Instance Insertable_string : Insertable string := InsStr.
#[export] Instance Insertable_int : Insertable Z := InsInt.
#[export] Instance Insertable_float : Insertable float := InsFloat.

Definition put {T : Type} `{Insertable T} (o : ostringstream) (x : T)
  : ostringstream := o ++ [inserted x].

Notation "o << x" := (put o x) (at level 55, left associativity).

(* ------------------------------------------------------------------ *)
(** ** Capability and limit getters *)

Definition getCapabilities : Z :=
  Z.lor IVibrator.CAP_ON_CALLBACK IVibrator.CAP_PERFORM_CALLBACK.

Definition getSupportedEffects : list Effect.t :=
  [ Effect.TICK; Effect.TEXTURE_TICK; Effect.CLICK; Effect.HEAVY_CLICK;
    Effect.DOUBLE_CLICK; Effect.THUD; Effect.POP ].

Definition getCompositionDelayMax : Z := COMPOSE_DELAY_MAX_MS.
Definition getCompositionSizeMax : Z := COMPOSE_SIZE_MAX.

Definition getSupportedPrimitives : list CompositePrimitive.t :=
  [ CompositePrimitive.NOOP; CompositePrimitive.CLICK;
    CompositePrimitive.THUD; CompositePrimitive.SPIN;
    CompositePrimitive.QUICK_RISE; CompositePrimitive.SLOW_RISE;
    CompositePrimitive.QUICK_FALL; CompositePrimitive.LIGHT_TICK;
    CompositePrimitive.LOW_TICK ].

(** [getPrimitiveDuration]: the status and, on success, [*durationMs]. *)
Definition getPrimitiveDuration (primitive : CompositePrimitive.t)
  : ScopedAStatus * option Z :=
  let supported := getSupportedPrimitives in
  if not_found primitive supported then
    (fromExceptionCode EX_UNSUPPORTED_OPERATION, None)
  else if negb (primitive =? CompositePrimitive.NOOP) then (ok, Some 100)
  else (ok, Some 0).

Definition getPwlePrimitiveDurationMax : Z :=
  COMPOSE_PWLE_PRIMITIVE_DURATION_MAX_MS.
Definition getPwleCompositionSizeMax : Z := COMPOSE_PWLE_SIZE_MAX.

Definition getSupportedBraking : list Braking.t :=
  [ Braking.NONE; Braking.CLAB ].

(* ------------------------------------------------------------------ *)
(** ** [off], [on], [perform] *)

Definition off (w : World) : ScopedAStatus * World :=
  let w := write_haptic_node INDEX_NODE 0 w in
  let w := write_haptic_node ACTIVATE_NODE 0 w in
  (ok, w).

Definition on (timeoutMs : Z) (callback : option IVibratorCallback) (w : World)
  : ScopedAStatus * World :=
  let w := write_haptic_node DURATION_NODE timeoutMs w in
  let w := write_haptic_node ACTIVATE_NODE 1 w in
  let w := match callback with
           | Some cb => detach (OnThread timeoutMs cb) w
           | None => w
           end in
  (ok, w).

(** The [switch] of [perform]: the [(index, timeMs)] it selects, [None] for
    the [default] case. *)
Definition perform_switch (effect : Effect.t) : option (Z * Z) :=
  if effect =? Effect.TICK then
    Some (WAVEFORM_TICK_EFFECT_INDEX, WAVEFORM_TICK_EFFECT_MS)
  else if effect =? Effect.TEXTURE_TICK then
    Some (WAVEFORM_TEXTURE_TICK_EFFECT_INDEX, WAVEFORM_TEXTURE_TICK_EFFECT_MS)
  else if effect =? Effect.CLICK then
    Some (WAVEFORM_CLICK_EFFECT_INDEX, WAVEFORM_CLICK_EFFECT_MS)
  else if effect =? Effect.HEAVY_CLICK then
    Some (WAVEFORM_HEAVY_CLICK_EFFECT_INDEX, WAVEFORM_HEAVY_CLICK_EFFECT_MS)
  else if effect =? Effect.DOUBLE_CLICK then
    Some (WAVEFORM_DOUBLE_CLICK_EFFECT_INDEX, WAVEFORM_DOUBLE_CLICK_EFFECT_MS)
  else if effect =? Effect.THUD then
    Some (WAVEFORM_THUD_EFFECT_INDEX, WAVEFORM_THUD_EFFECT_MS)
  else if effect =? Effect.POP then
    Some (WAVEFORM_TICK_EFFECT_INDEX, WAVEFORM_POP_EFFECT_MS)
  else None.

(** [perform]: the status, [*_aidl_return] when it is assigned, and the
    trace. *)
Definition perform (effect : Effect.t) (strength : EffectStrength.t)
    (callback : option IVibratorCallback) (w : World)
  : ScopedAStatus * option Z * World :=
  match perform_switch effect with
  | None => (fromExceptionCode EX_UNSUPPORTED_OPERATION, None, w)
  | Some (index, timeMs) =>
      let w := write_haptic_node INDEX_NODE index w in
      let '(status, w) := on timeMs None w in
      let w := match callback with
               | Some cb => detach (PerformThread cb) w
               | None => w
               end in
      (ok, Some timeMs, w)
  end.

(* ------------------------------------------------------------------ *)
(** ** [compose] *)

(** Body of the validation loop of [compose]. *)
Definition compose_check (supported : list CompositePrimitive.t) (_ : unit)
    (e : CompositeEffect.t) : flow unit :=
  if CompositeEffect.delayMs e >? COMPOSE_DELAY_MAX_MS then
    Return (fromExceptionCode EX_ILLEGAL_ARGUMENT)
  else if flt (CompositeEffect.scale e) f_zero
          || fgt (CompositeEffect.scale e) f_one then
    Return (fromExceptionCode EX_ILLEGAL_ARGUMENT)
  else if not_found (CompositeEffect.primitive e) supported then
    Return (fromExceptionCode EX_UNSUPPORTED_OPERATION)
  else Next tt.

Definition compose (composite : list CompositeEffect.t)
    (callback : option IVibratorCallback) (w : World)
  : ScopedAStatus * World :=
  if size composite >? COMPOSE_SIZE_MAX then
    (fromExceptionCode EX_ILLEGAL_ARGUMENT, w)
  else
    let supported := getSupportedPrimitives in
    match for_each (compose_check supported) tt composite with
    | Return s => (s, w)
    | Next _ => (ok, detach (ComposeThread composite callback) w)
    end.

(* ------------------------------------------------------------------ *)
(** ** [composePwle] *)

(** The local variables of [composePwle] that the loop updates. *)
Record PwleState : Type := mkPwleState {
  pwleBuilder : ostringstream;
  prevEndAmplitude : float;
  prevEndFrequency : float;
  segmentIdx : Z;
  totalDuration : Z
}.

(** [resetPreviousEndAmplitudeEndFrequency]: the new values of its two
    reference parameters. *)
Definition resetPreviousEndAmplitudeEndFrequency : float * float :=
  let reset := f_minus_one in
  (reset, reset).

Definition incrementIndex (index : Z) : Z := index + 1.

Definition constructActiveDefaults (pwleBuilder : ostringstream)
    (segmentIdx : Z) : ostringstream :=
  let pwleBuilder := pwleBuilder << ",C"%string << segmentIdx << ":1"%string in
  let pwleBuilder := pwleBuilder << ",B"%string << segmentIdx << ":0"%string in
  let pwleBuilder := pwleBuilder << ",AR"%string << segmentIdx << ":0"%string in
  let pwleBuilder := pwleBuilder << ",V"%string << segmentIdx << ":0"%string in
  pwleBuilder.

Definition constructActiveSegment (pwleBuilder : ostringstream)
    (segmentIdx : Z) (duration : Z) (amplitude frequency : float)
  : ostringstream :=
  let pwleBuilder :=
    pwleBuilder << ",T"%string << segmentIdx << ":"%string
      << duration in
  let pwleBuilder :=
    pwleBuilder << ",L"%string << segmentIdx << ":"%string
      << amplitude in
  let pwleBuilder :=
    pwleBuilder << ",F"%string << segmentIdx << ":"%string
      << frequency in
  constructActiveDefaults pwleBuilder segmentIdx.

Definition constructBrakingSegment (pwleBuilder : ostringstream)
    (segmentIdx : Z) (duration : Z) (brakingType : Braking.t)
  : ostringstream :=
  let pwleBuilder :=
    pwleBuilder << ",T"%string << segmentIdx << ":"%string
      << duration in
  let pwleBuilder :=
    pwleBuilder << ",L"%string << segmentIdx << ":"%string
      << 0 in
  let pwleBuilder :=
    pwleBuilder << ",F"%string << segmentIdx << ":"%string
      << 0 in
  let pwleBuilder := pwleBuilder << ",C"%string << segmentIdx << ":0"%string in
  let pwleBuilder :=
    pwleBuilder << ",B"%string << segmentIdx << ":"%string
      << brakingType in
  let pwleBuilder := pwleBuilder << ",AR"%string << segmentIdx << ":0"%string in
  let pwleBuilder := pwleBuilder << ",V"%string << segmentIdx << ":0"%string in
  pwleBuilder.

(** The continuity test [(startAmplitude == prevEndAmplitude) &&
    (startFrequency == prevEndFrequency)]. *)
Definition continues (st : PwleState) (a : ActivePwle.t) : bool :=
  feq (ActivePwle.startAmplitude a) (prevEndAmplitude st)
  && feq (ActivePwle.startFrequency a) (prevEndFrequency st).

(** Body of the loop of [composePwle]: one segment. *)
Definition composePwle_segment (st : PwleState) (e : PrimitivePwle)
  : flow PwleState :=
  match e with
  | active a =>
      if (ActivePwle.duration a <? 0)
         || (ActivePwle.duration a >? COMPOSE_PWLE_PRIMITIVE_DURATION_MAX_MS)
      then Return (fromExceptionCode EX_ILLEGAL_ARGUMENT)
      else if flt (ActivePwle.startAmplitude a) PWLE_LEVEL_MIN
              || fgt (ActivePwle.startAmplitude a) PWLE_LEVEL_MAX
              || flt (ActivePwle.endAmplitude a) PWLE_LEVEL_MIN
              || fgt (ActivePwle.endAmplitude a) PWLE_LEVEL_MAX
      then Return (fromExceptionCode EX_ILLEGAL_ARGUMENT)
      else if flt (ActivePwle.startFrequency a) PWLE_FREQUENCY_MIN_HZ
              || fgt (ActivePwle.startFrequency a) PWLE_FREQUENCY_MAX_HZ
              || flt (ActivePwle.endFrequency a) PWLE_FREQUENCY_MIN_HZ
              || fgt (ActivePwle.endFrequency a) PWLE_FREQUENCY_MAX_HZ
      then Return (fromExceptionCode EX_ILLEGAL_ARGUMENT)
      else
        let '(builder, idx) :=
          if negb (continues st a) then
            (constructActiveSegment (pwleBuilder st) (segmentIdx st) 0
               (ActivePwle.startAmplitude a) (ActivePwle.startFrequency a),
             incrementIndex (segmentIdx st))
          else (pwleBuilder st, segmentIdx st) in
        let builder :=
          constructActiveSegment builder idx (ActivePwle.duration a)
            (ActivePwle.endAmplitude a) (ActivePwle.endFrequency a) in
        let idx := incrementIndex idx in
        Next {| pwleBuilder := builder;
                prevEndAmplitude := ActivePwle.endAmplitude a;
                prevEndFrequency := ActivePwle.endFrequency a;
                segmentIdx := idx;
                totalDuration :=
                  uint32 (totalDuration st + ActivePwle.duration a) |}
  | braking b =>
      if BrakingPwle.braking b >? Braking.CLAB then
        Return (fromExceptionCode EX_ILLEGAL_ARGUMENT)
      else if BrakingPwle.duration b >? COMPOSE_PWLE_PRIMITIVE_DURATION_MAX_MS
      then Return (fromExceptionCode EX_ILLEGAL_ARGUMENT)
      else
        let builder :=
          constructBrakingSegment (pwleBuilder st) (segmentIdx st) 0
            (BrakingPwle.braking b) in
        let idx := incrementIndex (segmentIdx st) in
        let builder :=
          constructBrakingSegment builder idx (BrakingPwle.duration b)
            (BrakingPwle.braking b) in
        let idx := incrementIndex idx in
        let '(amplitude, frequency) := resetPreviousEndAmplitudeEndFrequency in
        Next {| pwleBuilder := builder;
                prevEndAmplitude := amplitude;
                prevEndFrequency := frequency;
                segmentIdx := idx;
                totalDuration :=
                  uint32 (totalDuration st + BrakingPwle.duration b) |}
  end.

(** The header inserted before the loop. *)
Definition pwle_header : string := "S:0,WF:4,RP:0,WT:0".

(** The locals of [composePwle] when the loop is entered. *)
Definition pwle_start : PwleState :=
  let '(amplitude, frequency) := resetPreviousEndAmplitudeEndFrequency in
  {| pwleBuilder := [] << pwle_header;
     prevEndAmplitude := amplitude;
     prevEndFrequency := frequency;
     segmentIdx := 0;
     totalDuration := 0 |}.

(** The loop of [composePwle] over a whole composition. *)
Definition composePwle_loop (composite : list PrimitivePwle) : flow PwleState :=
  for_each composePwle_segment pwle_start composite.

Definition composePwle (composite : list PrimitivePwle)
    (callback : option IVibratorCallback) (w : World)
  : ScopedAStatus * World :=
  let compositionSizeMax := getPwleCompositionSizeMax in
  if (size composite <=? 0) || (size composite >? compositionSizeMax) then
    (fromExceptionCode EX_ILLEGAL_ARGUMENT, w)
  else
    match composePwle_loop composite with
    | Return s => (s, w)
    | Next st => (ok, detach (ComposePwleThread (totalDuration st) callback) w)
    end.

(* ------------------------------------------------------------------ *)
(** ** What the detached threads do

    The sequence of blocking calls and notifications of each lambda.
    [usleep] takes a [useconds_t], an unsigned 32-bit value. *)

Inductive ThreadOp : Type :=
| Usleep (usec : Z)
| OnComplete (callback : IVibratorCallback).

Definition notify (callback : option IVibratorCallback) : list ThreadOp :=
  match callback with
  | Some cb => [OnComplete cb]
  | None => []
  end.

(** One iteration of the loop of the [compose] lambda. *)
Definition compose_play (e : CompositeEffect.t) : list ThreadOp :=
  let delay :=
    if negb (CompositeEffect.delayMs e =? 0)
    then [Usleep (uint32 (CompositeEffect.delayMs e * 1000))] else [] in
  let durationMs :=
    match snd (getPrimitiveDuration (CompositeEffect.primitive e)) with
    | Some d => d
    | None => 0
    end in
  delay ++ [Usleep (uint32 (durationMs * 1000))].

Section ThreadBodies.

(** [kEffectMillis] is declared in [vibrator-impl/Vibrator.h]. *)
Variable kEffectMillis : Z.

Definition thread_body (t : Thread) : list ThreadOp :=
  match t with
  | OnThread timeoutMs cb => [Usleep (uint32 (timeoutMs * 1000)); OnComplete cb]
  | PerformThread cb => [Usleep (uint32 (kEffectMillis * 1000)); OnComplete cb]
  | ComposeThread composite callback =>
      flat_map compose_play composite ++ notify callback
  | ComposePwleThread totalDuration callback =>
      Usleep (uint32 (totalDuration * 1000)) :: notify callback
  end.

End ThreadBodies.

(* ------------------------------------------------------------------ *)
(** ** Vocabulary of the properties *)

(** Sum of the declared durations of the segments of a composition. *)
Definition pwle_duration (e : PrimitivePwle) : Z :=
  match e with
  | active a => ActivePwle.duration a
  | braking b => BrakingPwle.duration b
  end.

Definition declared_total (composite : list PrimitivePwle) : Z :=
  fold_right (fun e acc => pwle_duration e + acc) 0 composite.

(** The segment indices a command uses: the operand that follows each
    [",T"] key, in order of emission. *)
Fixpoint token_indices (o : ostringstream) : list Z :=
  match o with
  | InsStr k :: ((InsInt n :: _) as rest) =>
      if String.eqb k ",T" then n :: token_indices rest else token_indices rest
  | _ :: rest => token_indices rest
  | [] => []
  end.

(** [lo <= x <= hi] on [float]; false for NaN. *)
Definition fbetween (lo hi x : float) : bool := fle lo x && fle x hi.

(** The field ranges of a PWLE segment. *)
Definition pwle_in_range (e : PrimitivePwle) : Prop :=
  match e with
  | active a =>
      0 <= ActivePwle.duration a <= COMPOSE_PWLE_PRIMITIVE_DURATION_MAX_MS
      /\ fbetween PWLE_LEVEL_MIN PWLE_LEVEL_MAX (ActivePwle.startAmplitude a) = true
      /\ fbetween PWLE_LEVEL_MIN PWLE_LEVEL_MAX (ActivePwle.endAmplitude a) = true
      /\ fbetween PWLE_FREQUENCY_MIN_HZ PWLE_FREQUENCY_MAX_HZ
           (ActivePwle.startFrequency a) = true
      /\ fbetween PWLE_FREQUENCY_MIN_HZ PWLE_FREQUENCY_MAX_HZ
           (ActivePwle.endFrequency a) = true
  | braking b =>
      BrakingPwle.braking b <= Braking.CLAB
      /\ BrakingPwle.duration b <= COMPOSE_PWLE_PRIMITIVE_DURATION_MAX_MS
  end.

(** What the loop body appends for an active segment [a] met in state [st],
    leaving state [st']: the real token alone when [a] continues the previous
    segment, a zero-duration token holding the start values and then the real
    token otherwise. *)
Definition emits_active (st : PwleState) (a : ActivePwle.t) (st' : PwleState)
  : Prop :=
  if continues st a then
    pwleBuilder st' =
      constructActiveSegment (pwleBuilder st) (segmentIdx st)
        (ActivePwle.duration a)
        (ActivePwle.endAmplitude a) (ActivePwle.endFrequency a)
    /\ segmentIdx st' = segmentIdx st + 1
  else
    pwleBuilder st' =
      constructActiveSegment
        (constructActiveSegment (pwleBuilder st) (segmentIdx st) 0
           (ActivePwle.startAmplitude a) (ActivePwle.startFrequency a))
        (segmentIdx st + 1) (ActivePwle.duration a)
        (ActivePwle.endAmplitude a) (ActivePwle.endFrequency a)
    /\ segmentIdx st' = segmentIdx st + 2.

(** What the loop body appends for a braking segment: two tokens of the
    same braking type, the first of duration zero, and the sentinel in the
    previous-end pair. *)
Definition emits_braking (st : PwleState) (b : BrakingPwle.t) (st' : PwleState)
  : Prop :=
  pwleBuilder st' =
    constructBrakingSegment
      (constructBrakingSegment (pwleBuilder st) (segmentIdx st) 0
         (BrakingPwle.braking b))
      (segmentIdx st + 1) (BrakingPwle.duration b) (BrakingPwle.braking b)
  /\ segmentIdx st' = segmentIdx st + 2
  /\ prevEndAmplitude st' = f_minus_one
  /\ prevEndFrequency st' = f_minus_one.

(** [b.start == a.end] on both components. *)
Definition joins (a b : ActivePwle.t) : bool :=
  feq (ActivePwle.startAmplitude b) (ActivePwle.endAmplitude a)
  && feq (ActivePwle.startFrequency b) (ActivePwle.endFrequency a).

(** One token of the driver's segment grammar, as the operands inserted in
    the stream.  A token of an active segment holds, keyed by its segment
    index: T (duration), L (level), F (frequency), C = 1, B = 0, AR = 0 and
    V = 0. *)
Definition active_token (idx duration : Z) (amplitude frequency : float)
  : list Inserted :=
  [ InsStr ",T"; InsInt idx; InsStr ":"; InsInt duration;
    InsStr ",L"; InsInt idx; InsStr ":"; InsFloat amplitude;
    InsStr ",F"; InsInt idx; InsStr ":"; InsFloat frequency;
    InsStr ",C"; InsInt idx; InsStr ":1";
    InsStr ",B"; InsInt idx; InsStr ":0";
    InsStr ",AR"; InsInt idx; InsStr ":0";
    InsStr ",V"; InsInt idx; InsStr ":0" ].

(** A token of a braking segment holds T (duration), L = 0, F = 0, C = 0,
    B (braking type), AR = 0 and V = 0. *)
Definition braking_token (idx duration : Z) (brakingType : Braking.t)
  : list Inserted :=
  [ InsStr ",T"; InsInt idx; InsStr ":"; InsInt duration;
    InsStr ",L"; InsInt idx; InsStr ":"; InsInt 0;
    InsStr ",F"; InsInt idx; InsStr ":"; InsInt 0;
    InsStr ",C"; InsInt idx; InsStr ":0";
    InsStr ",B"; InsInt idx; InsStr ":"; InsInt brakingType;
    InsStr ",AR"; InsInt idx; InsStr ":0";
    InsStr ",V"; InsInt idx; InsStr ":0" ].

(** The tokens appended to the command between [st] and [st'] for the
    active segment [a].  When [continuous] holds: the real token alone
    (declared duration, end amplitude and end frequency), the index
    advancing by 1.  Otherwise: a token of duration 0 holding the start
    amplitude and start frequency, then the real token under the next index,
    the index advancing by 2. *)
Definition appends_active (st : PwleState) (a : ActivePwle.t)
    (continuous : bool) (st' : PwleState) : Prop :=
  if continuous then
    pwleBuilder st' =
      pwleBuilder st
      ++ active_token (segmentIdx st) (ActivePwle.duration a)
           (ActivePwle.endAmplitude a) (ActivePwle.endFrequency a)
    /\ segmentIdx st' = segmentIdx st + 1
  else
    pwleBuilder st' =
      pwleBuilder st
      ++ active_token (segmentIdx st) 0
           (ActivePwle.startAmplitude a) (ActivePwle.startFrequency a)
      ++ active_token (segmentIdx st + 1) (ActivePwle.duration a)
           (ActivePwle.endAmplitude a) (ActivePwle.endFrequency a)
    /\ segmentIdx st' = segmentIdx st + 2.

(** The tokens appended for the braking segment [b]: a token of duration 0
    and a token of the declared duration, both of the braking type of [b],
    under two consecutive indices; the previous-end pair becomes the
    sentinel. *)
Definition appends_braking (st : PwleState) (b : BrakingPwle.t)
    (st' : PwleState) : Prop :=
  pwleBuilder st' =
    pwleBuilder st
    ++ braking_token (segmentIdx st) 0 (BrakingPwle.braking b)
    ++ braking_token (segmentIdx st + 1) (BrakingPwle.duration b)
         (BrakingPwle.braking b)
  /\ segmentIdx st' = segmentIdx st + 2
  /\ prevEndAmplitude st' = f_minus_one
  /\ prevEndFrequency st' = f_minus_one.

(** The encoding of the active segment [a] that stands between [pre] and
    [post] in a composition the loop accepts: [st] is the state reached
    after [pre], [st'] the state after [a], and [st''] the state after an
    active segment [b] that directly follows [a]. *)
Definition active_encoding (pre : list PrimitivePwle) (a : ActivePwle.t)
    (post : list PrimitivePwle) : Prop :=
  exists st st',
    composePwle_loop pre = Next st
    /\ composePwle_segment st (active a) = Next st'
    /\ appends_active st a (continues st a) st'
    /\ forall b post', post = active b :: post' ->
         exists st'',
           composePwle_segment st' (active b) = Next st''
           /\ appends_active st' b (joins a b) st''
           /\ segmentIdx st'' =
                segmentIdx st
                + (if continues st a then 1 else 2)
                + (if joins a b then 1 else 2).

(** The encoding of the braking segment [b] that stands after [pre] in a
    composition the loop accepts, and of any active segment accepted right
    after it. *)
Definition braking_encoding (pre : list PrimitivePwle) (b : BrakingPwle.t)
  : Prop :=
  exists st st',
    composePwle_loop pre = Next st
    /\ composePwle_segment st (braking b) = Next st'
    /\ appends_braking st b st'
    /\ forall a st'',
         composePwle_segment st' (active a) = Next st'' ->
         continues st' a = false /\ appends_active st' a false st''.

(** An entry of a primitive composition that passes the three checks of
    [compose]. *)
Definition compose_entry_passes (e : CompositeEffect.t) : Prop :=
  CompositeEffect.delayMs e <= COMPOSE_DELAY_MAX_MS
  /\ flt (CompositeEffect.scale e) f_zero = false
  /\ fgt (CompositeEffect.scale e) f_one = false
  /\ In (CompositeEffect.primitive e) getSupportedPrimitives.

Definition callback_thread (callback : option IVibratorCallback)
    (t : IVibratorCallback -> Thread) : World :=
  match callback with
  | Some cb => [Detach (t cb)]
  | None => []
  end.

(** Inputs used in the examples. *)
Definition example_active : ActivePwle.t :=
  ActivePwle.mk f_zero RESONANT_FREQUENCY_HZ f_half RESONANT_FREQUENCY_HZ 100.

Definition example_braking : BrakingPwle.t := BrakingPwle.mk Braking.CLAB 50.

Definition example_pwle : list PrimitivePwle :=
  [active example_active; braking example_braking].

(** An active segment that starts where [example_active] ends. *)
Definition example_follow : ActivePwle.t :=
  ActivePwle.mk f_half RESONANT_FREQUENCY_HZ f_one PWLE_FREQUENCY_MAX_HZ 20.

Definition negative_braking : BrakingPwle.t := BrakingPwle.mk Braking.NONE (-1).

Definition nan_scale_entry : CompositeEffect.t :=
  CompositeEffect.mk 0 CompositePrimitive.CLICK NaN.

(* ------------------------------------------------------------------ *)
(** ** The remaining methods of the HAL *)

Definition Q_FACTOR : float := S754_finite false 11534336 (-20).
Definition PWLE_FREQUENCY_RESOLUTION_HZ : float :=
  S754_finite false 8388608 (-23).

(** Arithmetic on [float] (binary32) and on [double] (binary64), rounding to
    nearest even, and the two conversions between them. *)
Definition fadd32 (a b : float) : float := SFadd 24 128 a b.
Definition fsub32 (a b : float) : float := SFsub 24 128 a b.
Definition fdiv32 (a b : float) : float := SFdiv 24 128 a b.
Definition fsub64 (a b : spec_float) : spec_float := SFsub 53 1024 a b.

Definition to_double (f : float) : spec_float :=
  match f with
  | S754_finite s m e => binary_round 53 1024 s m e
  | _ => f
  end.

Definition to_float (d : spec_float) : float :=
  match d with
  | S754_finite s m e => binary_round 24 128 s m e
  | _ => d
  end.

(** Conversion of a [float] to [int]: truncation toward zero (the code only
    converts small finite values; infinities and NaN are mapped to 0). *)
Definition float_to_int (f : float) : Z :=
  match f with
  | S754_finite s m e => cond_Zopp s (Z.shiftl (Zpos m) e)
  | _ => 0
  end.

(** The [double] literal [0.01] and the [float] value of the [int] 2. *)
Definition d_0_01 : spec_float := S754_finite false 5764607523034235 (-59).
Definition f_two : float := S754_finite false 8388608 (-22).

Definition PWLE_BW_MAP_SIZE : float :=
  fadd32 f_one
    (fdiv32 (fsub32 PWLE_FREQUENCY_MAX_HZ PWLE_FREQUENCY_MIN_HZ)
       PWLE_FREQUENCY_RESOLUTION_HZ).

Definition setAmplitude (amplitude : float) : ScopedAStatus :=
  if fle amplitude f_zero || fgt amplitude f_one then
    fromExceptionCode EX_ILLEGAL_ARGUMENT
  else ok.

Definition setExternalControl (enabled : bool) : ScopedAStatus := ok.

Definition getSupportedAlwaysOnEffects : list Effect.t := getSupportedEffects.

Definition alwaysOnEnable (id : Z) (effect : Effect.t)
    (strength : EffectStrength.t) : ScopedAStatus :=
  let effects := getSupportedAlwaysOnEffects in
  if not_found effect effects then
    fromExceptionCode EX_UNSUPPORTED_OPERATION
  else ok.

Definition alwaysOnDisable (id : Z) : ScopedAStatus := ok.

Definition getResonantFrequency : float := RESONANT_FREQUENCY_HZ.
Definition getQFactor : float := Q_FACTOR.
Definition getFrequencyResolution : float := PWLE_FREQUENCY_RESOLUTION_HZ.
Definition getFrequencyMinimum : float := PWLE_FREQUENCY_MIN_HZ.

(** [v[i]] and [v[i] = x] on a [std::vector<float>]; the code only uses
    indices inside the vector (outside, a read gives NaN and a store does
    nothing here). *)
Definition vector_get (v : list float) (i : Z) : float :=
  nth (Z.to_nat i) v NaN.

Fixpoint set_nth (n : nat) (x : float) (v : list float) : list float :=
  match v, n with
  | [], _ => []
  | _ :: v', O => x :: v'
  | y :: v', S n' => y :: set_nth n' x v'
  end.

Definition vector_set (v : list float) (i : Z) (x : float) : list float :=
  if i <? 0 then v else set_nth (Z.to_nat i) x v.

(** One iteration of the loop of [getBandwidthAmplitudeMap]; the
    subtraction is done in [double] and the result stored as [float]. *)
Definition bandwidthAmplitudeMap_step (halfMapSize : Z) (m : list float)
    (i : Z) : list float :=
  let m :=
    vector_set m (halfMapSize + i + 1)
      (to_float (fsub64 (to_double (vector_get m (halfMapSize + i)))
                   d_0_01)) in
  vector_set m (halfMapSize - i - 1)
    (to_float (fsub64 (to_double (vector_get m (halfMapSize - i))) d_0_01)).

(** The vector built in the branch guarded by [CAP_FREQUENCY_CONTROL]. *)
Definition bandwidthAmplitudeMap_fill (halfMapSize : Z) : list float :=
  let bandwidthAmplitudeMap :=
    repeat PWLE_LEVEL_MAX (Z.to_nat (float_to_int PWLE_BW_MAP_SIZE)) in
  fold_left (bandwidthAmplitudeMap_step halfMapSize)
    (map Z.of_nat (seq 0 (Z.to_nat halfMapSize))) bandwidthAmplitudeMap.

Definition getBandwidthAmplitudeMap : ScopedAStatus * option (list float) :=
  let halfMapSize := float_to_int (fdiv32 PWLE_BW_MAP_SIZE f_two) in
  let capabilities := getCapabilities in
  if negb (Z.land capabilities IVibrator.CAP_FREQUENCY_CONTROL =? 0) then
    (ok, Some (bandwidthAmplitudeMap_fill halfMapSize))
  else (fromExceptionCode EX_UNSUPPORTED_OPERATION, None).

(* ------------------------------------------------------------------ *)
(** ** Further vocabulary *)

(** The content of the sysfs node [path] after the trace [w]: the value of
    the last write to it, if any ([std::ofstream] truncates the file). *)
Fixpoint node_value (path : string) (w : World) : option Z :=
  match w with
  | [] => None
  | a :: w' =>
      match node_value path w' with
      | Some v => Some v
      | None =>
          match a with
          | FileWrite p v => if String.eqb p path then Some v else None
          | Detach _ => None
          end
      end
  end.

(** Total time a thread body spends in [usleep], in microseconds. *)
Definition sleep_total (ops : list ThreadOp) : Z :=
  fold_right (fun op acc =>
                match op with
                | Usleep usec => usec + acc
                | OnComplete _ => acc
                end) 0 ops.

Definition is_Usleep (op : ThreadOp) : Prop :=
  match op with Usleep _ => True | OnComplete _ => False end.

(** The callback a detached thread holds. *)
Definition thread_callback (t : Thread) : option IVibratorCallback :=
  match t with
  | OnThread _ cb => Some cb
  | PerformThread cb => Some cb
  | ComposeThread _ callback => callback
  | ComposePwleThread _ callback => callback
  end.

(** Fixed duration of a primitive: 0 for NOOP, 100 otherwise. *)
Definition primitive_ms (p : CompositePrimitive.t) : Z :=
  if p =? CompositePrimitive.NOOP then 0 else 100.

(** Time a primitive composition asks for, in milliseconds. *)
Definition compose_ms (composite : list CompositeEffect.t) : Z :=
  fold_right (fun e acc =>
                CompositeEffect.delayMs e
                + primitive_ms (CompositeEffect.primitive e) + acc)
    0 composite.

(** A PWLE segment on which none of the tests of [composePwle] fires. *)
Definition pwle_segment_passes (e : PrimitivePwle) : Prop :=
  match e with
  | active a =>
      0 <= ActivePwle.duration a <= COMPOSE_PWLE_PRIMITIVE_DURATION_MAX_MS
      /\ flt (ActivePwle.startAmplitude a) PWLE_LEVEL_MIN = false
      /\ fgt (ActivePwle.startAmplitude a) PWLE_LEVEL_MAX = false
      /\ flt (ActivePwle.endAmplitude a) PWLE_LEVEL_MIN = false
      /\ fgt (ActivePwle.endAmplitude a) PWLE_LEVEL_MAX = false
      /\ flt (ActivePwle.startFrequency a) PWLE_FREQUENCY_MIN_HZ = false
      /\ fgt (ActivePwle.startFrequency a) PWLE_FREQUENCY_MAX_HZ = false
      /\ flt (ActivePwle.endFrequency a) PWLE_FREQUENCY_MIN_HZ = false
      /\ fgt (ActivePwle.endFrequency a) PWLE_FREQUENCY_MAX_HZ = false
  | braking b =>
      BrakingPwle.braking b <= Braking.CLAB
      /\ BrakingPwle.duration b <= COMPOSE_PWLE_PRIMITIVE_DURATION_MAX_MS
  end.

(** Number of active segments of a composition that start exactly where
    the active segment just before them ends; [prev] is the active segment
    that precedes the list, if the list follows one directly. *)
Fixpoint continuations (prev : option ActivePwle.t) (l : list PrimitivePwle)
  : Z :=
  match l with
  | [] => 0
  | active a :: l' =>
      (match prev with
       | Some p => if joins p a then 1 else 0
       | None => 0
       end) + continuations (Some a) l'
  | braking _ :: l' => continuations None l'
  end.

(** The integers [0, 1, ..., n-1]. *)
Definition upto (n : Z) : list Z := map Z.of_nat (seq 0 (Z.to_nat n)).

(** The previous-end pair of [st] is the end of the active segment [prev],
    or the sentinel when no active segment directly precedes. *)
Definition tracks (prev : option ActivePwle.t) (st : PwleState) : Prop :=
  match prev with
  | Some p =>
      prevEndAmplitude st = ActivePwle.endAmplitude p
      /\ prevEndFrequency st = ActivePwle.endFrequency p
  | None => prevEndAmplitude st = f_minus_one
  end.

(* ================================================================== *)
(** * Properties *)

(** ** Comparisons on [float] *)

Lemma SFcompare_antisym (a b : float) (c : comparison) :
  SFcompare a b = Some c -> SFcompare b a = Some (CompOpp c).
Proof.
  destruct a as [sa|sa| |sa ma ea], b as [sb|sb| |sb mb eb]; simpl;
    try discriminate;
    try (destruct sa; intros [= <-]; reflexivity);
    try (destruct sb; intros [= <-]; reflexivity);
    try (destruct sa, sb; intros [= <-]; reflexivity).
  intros [= <-].
  assert (Hm : Pos.compare_cont Eq mb ma = CompOpp (Pos.compare_cont Eq ma mb))
    by (symmetry; apply (Pos.compare_cont_antisym ma mb Eq)).
  destruct sa, sb; try reflexivity;
    rewrite (Z.compare_antisym ea eb); destruct (ea ?= eb); simpl;
    try reflexivity;
    rewrite Hm; destruct (Pos.compare_cont Eq ma mb); reflexivity.
Qed.

Lemma fle_not_flt (lo x : float) : fle lo x = true -> flt x lo = false.
Proof.
  unfold fle, flt, SFleb, SFltb.
  destruct (SFcompare lo x) as [c|] eqn:E; [|discriminate].
  rewrite (SFcompare_antisym _ _ _ E).
  destruct c; simpl; congruence.
Qed.

Lemma fle_not_fgt (x hi : float) : fle x hi = true -> fgt x hi = false.
Proof. unfold fgt. apply fle_not_flt. Qed.

Lemma fbetween_passes (lo hi x : float) :
  fbetween lo hi x = true -> flt x lo = false /\ fgt x hi = false.
Proof.
  unfold fbetween. intros H. apply andb_prop in H as [H1 H2].
  split; [apply fle_not_flt | apply fle_not_fgt]; assumption.
Qed.

(** A value that is not below [PWLE_LEVEL_MIN] is not equal to the
    sentinel [-1.0]. *)
Lemma level_not_sentinel (x : float) :
  flt x PWLE_LEVEL_MIN = false -> feq x f_minus_one = false.
Proof.
  unfold flt, feq, SFltb, SFeqb.
  destruct x as [s|s| |s m e].
  - reflexivity.
  - destruct s; reflexivity.
  - reflexivity.
  - destruct s.
    + intros H. vm_compute in H. discriminate H.
    + intros _. reflexivity.
Qed.

Lemma constants_are_binary32 :
  forallb is_binary32
    [ PWLE_LEVEL_MIN; PWLE_LEVEL_MAX; PWLE_FREQUENCY_MIN_HZ;
      RESONANT_FREQUENCY_HZ; PWLE_FREQUENCY_MAX_HZ;
      f_zero; f_one; f_minus_one; f_half ] = true.
Proof. reflexivity. Qed.

(** ** Loops *)

Lemma for_each_cons {A S : Type} (body : S -> A -> flow S) (e : A)
    (l : list A) (st : S) :
  for_each body st (e :: l) = (st' <- body st e ;; for_each body st' l).
Proof. reflexivity. Qed.

Lemma for_each_app {A S : Type} (body : S -> A -> flow S) (l1 l2 : list A) :
  forall st,
    for_each body st (l1 ++ l2) =
    (st' <- for_each body st l1 ;; for_each body st' l2).
Proof.
  induction l1 as [|e l1 IH]; intros st; simpl; [reflexivity|].
  destruct (body st e) as [st1|s]; simpl; [apply IH | reflexivity].
Qed.

Lemma for_each_split {A S : Type} (body : S -> A -> flow S)
    (pre : list A) (e : A) (post : list A) (st final : S) :
  for_each body st (pre ++ e :: post) = Next final ->
  exists st1 st2,
    for_each body st pre = Next st1
    /\ body st1 e = Next st2
    /\ for_each body st2 post = Next final.
Proof.
  rewrite for_each_app. simpl.
  destruct (for_each body st pre) as [st1|s]; simpl; [|discriminate].
  destruct (body st1 e) as [st2|s] eqn:E; simpl; [|discriminate].
  intros H. exists st1, st2. auto.
Qed.

Lemma for_each_Forall {A S : Type} (body : S -> A -> flow S) (P : A -> Prop) :
  (forall st e, P e -> exists st', body st e = Next st') ->
  forall l st, Forall P l -> exists st', for_each body st l = Next st'.
Proof.
  intros Hbody l. induction l as [|e l IH]; intros st HF; simpl.
  - eauto.
  - inversion HF as [|? ? He Hl]; subst.
    destruct (Hbody st e He) as [st1 ->]. simpl. apply IH, Hl.
Qed.

(** ** The loop body of [composePwle] *)

Ltac split_checks :=
  repeat match goal with
         | |- context [if ?c then Return _ else _] =>
             let E := fresh "Hcheck" in
             destruct c eqn:E; [discriminate|]
         end.

Lemma active_step (st : PwleState) (a : ActivePwle.t) (st' : PwleState) :
  composePwle_segment st (active a) = Next st' ->
  emits_active st a st'
  /\ prevEndAmplitude st' = ActivePwle.endAmplitude a
  /\ prevEndFrequency st' = ActivePwle.endFrequency a
  /\ totalDuration st' = uint32 (totalDuration st + ActivePwle.duration a)
  /\ flt (ActivePwle.startAmplitude a) PWLE_LEVEL_MIN = false
  /\ 0 <= ActivePwle.duration a <= COMPOSE_PWLE_PRIMITIVE_DURATION_MAX_MS.
Proof.
  unfold composePwle_segment. split_checks.
  unfold emits_active, incrementIndex.
  destruct (continues st a) eqn:Hc; simpl; intros [= <-]; simpl;
    (repeat split; try reflexivity);
    repeat match goal with
           | H : (_ || _) = false |- _ => apply orb_false_elim in H as [? ?]
           end; try assumption; lia.
Qed.

Lemma braking_step (st : PwleState) (b : BrakingPwle.t) (st' : PwleState) :
  composePwle_segment st (braking b) = Next st' ->
  emits_braking st b st'
  /\ totalDuration st' = uint32 (totalDuration st + BrakingPwle.duration b)
  /\ BrakingPwle.braking b <= Braking.CLAB
  /\ BrakingPwle.duration b <= COMPOSE_PWLE_PRIMITIVE_DURATION_MAX_MS.
Proof.
  unfold composePwle_segment. split_checks.
  unfold emits_braking, incrementIndex. simpl. intros [= <-]. simpl.
  repeat split; try reflexivity; lia.
Qed.

Lemma segment_step_total (st : PwleState) (e : PrimitivePwle) (st' : PwleState) :
  composePwle_segment st e = Next st' ->
  totalDuration st' = uint32 (totalDuration st + pwle_duration e)
  /\ segmentIdx st < segmentIdx st' <= segmentIdx st + 2.
Proof.
  destruct e as [a|b]; intros H.
  - apply active_step in H as (Hem & _ & _ & Ht & _).
    split; [exact Ht|]. unfold emits_active in Hem.
    destruct (continues st a); destruct Hem as [_ ->]; lia.
  - apply braking_step in H as ((_ & -> & _) & Ht & _).
    split; [exact Ht | lia].
Qed.

Lemma uint32_add_l (x y : Z) : uint32 (uint32 x + y) = uint32 (x + y).
Proof. unfold uint32. apply Z.add_mod_idemp_l. lia. Qed.

(** The accumulated [totalDuration] is the sum of the declared durations
    reduced modulo [2^32], and the segment index never exceeds twice the
    number of segments (so the [int] index does not overflow). *)
Lemma loop_total (composite : list PrimitivePwle) :
  forall st st',
    0 <= totalDuration st < 2 ^ 32 ->
    for_each composePwle_segment st composite = Next st' ->
    totalDuration st' = uint32 (totalDuration st + declared_total composite)
    /\ segmentIdx st <= segmentIdx st' <= segmentIdx st + 2 * size composite.
Proof.
  unfold size.
  induction composite as [|e l IH]; intros st st' Hr; simpl for_each.
  - intros [= <-]. simpl declared_total. rewrite Z.add_0_r.
    split; [|simpl; lia].
    unfold uint32. symmetry. apply Z.mod_small. exact Hr.
  - destruct (composePwle_segment st e) as [st1|s] eqn:E; simpl; [|discriminate].
    intros H. apply segment_step_total in E as [Ht Hi].
    apply IH in H as [Ht' Hi'].
    + split.
      * rewrite Ht', Ht, uint32_add_l. simpl declared_total.
        f_equal. lia.
      * simpl length. lia.
    + rewrite Ht. unfold uint32. apply Z.mod_pos_bound. lia.
Qed.

Lemma composePwle_loop_total (composite : list PrimitivePwle) (st : PwleState) :
  composePwle_loop composite = Next st ->
  totalDuration st = uint32 (declared_total composite)
  /\ 0 <= segmentIdx st <= 2 * size composite.
Proof.
  unfold composePwle_loop. intros H.
  apply loop_total in H; [|simpl; lia].
  simpl in H. exact H.
Qed.

(** Every check of [composePwle] passes on a segment whose fields are in
    range. *)
Lemma segment_in_range_passes (st : PwleState) (e : PrimitivePwle) :
  pwle_in_range e -> exists st', composePwle_segment st e = Next st'.
Proof.
  destruct e as [a|b]; simpl pwle_in_range.
  - intros (Hd & Hsa & Hea & Hsf & Hef).
    apply fbetween_passes in Hsa as [Hsa1 Hsa2].
    apply fbetween_passes in Hea as [Hea1 Hea2].
    apply fbetween_passes in Hsf as [Hsf1 Hsf2].
    apply fbetween_passes in Hef as [Hef1 Hef2].
    unfold composePwle_segment.
    rewrite Hsa1, Hsa2, Hea1, Hea2, Hsf1, Hsf2, Hef1, Hef2. simpl.
    replace (ActivePwle.duration a <? 0) with false by (symmetry; apply Z.ltb_ge; lia).
    replace (ActivePwle.duration a >? COMPOSE_PWLE_PRIMITIVE_DURATION_MAX_MS)
      with false by (symmetry; rewrite Z.gtb_ltb; apply Z.ltb_ge; lia).
    simpl. destruct (negb (continues st a)); eauto.
  - intros [Hb Hd]. unfold composePwle_segment.
    replace (BrakingPwle.braking b >? Braking.CLAB)
      with false by (symmetry; rewrite Z.gtb_ltb; apply Z.ltb_ge; lia).
    replace (BrakingPwle.duration b >? COMPOSE_PWLE_PRIMITIVE_DURATION_MAX_MS)
      with false by (symmetry; rewrite Z.gtb_ltb; apply Z.ltb_ge; lia).
    simpl. eauto.
Qed.

(** [composePwle] succeeds exactly when the size is in range and the loop
    runs to its end; it then only detaches the completion thread. *)
Lemma composePwle_ok_inv (composite : list PrimitivePwle)
    (callback : option IVibratorCallback) (w : World) :
  fst (composePwle composite callback w) = ok ->
  1 <= size composite <= COMPOSE_PWLE_SIZE_MAX
  /\ exists st,
       composePwle_loop composite = Next st
       /\ composePwle composite callback w =
            (ok, w ++ [Detach (ComposePwleThread (totalDuration st) callback)]).
Proof.
  unfold composePwle, getPwleCompositionSizeMax.
  destruct (size composite <=? 0) eqn:E0; simpl; [discriminate|].
  destruct (size composite >? COMPOSE_PWLE_SIZE_MAX) eqn:E1; simpl; [discriminate|].
  destruct (composePwle_loop composite) as [st|s] eqn:EL; simpl.
  - intros _. split.
    + apply Z.leb_gt in E0. rewrite Z.gtb_ltb in E1. apply Z.ltb_ge in E1. lia.
    + exists st. split; reflexivity.
  - intros ->. exfalso.
    unfold composePwle_loop in EL. clear E0 E1.
    revert EL. generalize pwle_start.
    induction composite as [|e l IH]; intros st0; simpl; [discriminate|].
    destruct (composePwle_segment st0 e) as [st1|s1] eqn:ES; simpl.
    + apply IH.
    + intros [= Hs]. revert ES. subst s1.
      destruct e as [a|b]; unfold composePwle_segment; split_checks.
      * simpl. destruct (negb (continues st0 a)); discriminate.
      * simpl. discriminate.
Qed.

(* ------------------------------------------------------------------ *)
(** ** Encoding of PWLE segments *)

Lemma constructActiveSegment_tokens (o : ostringstream) (idx duration : Z)
    (amplitude frequency : float) :
  constructActiveSegment o idx duration amplitude frequency
  = o ++ active_token idx duration amplitude frequency.
Proof.
  unfold constructActiveSegment, constructActiveDefaults, put, active_token.
  rewrite <- !app_assoc. reflexivity.
Qed.

Lemma constructBrakingSegment_tokens (o : ostringstream) (idx duration : Z)
    (brakingType : Braking.t) :
  constructBrakingSegment o idx duration brakingType
  = o ++ braking_token idx duration brakingType.
Proof.
  unfold constructBrakingSegment, put, braking_token.
  rewrite <- !app_assoc. reflexivity.
Qed.

Lemma active_step_tokens (st : PwleState) (a : ActivePwle.t)
    (st' : PwleState) :
  composePwle_segment st (active a) = Next st' ->
  appends_active st a (continues st a) st'.
Proof.
  intros H. apply active_step in H as (Hem & _).
  unfold emits_active in Hem. unfold appends_active.
  destruct (continues st a); destruct Hem as [Hb Hi]; split;
    try exact Hi; rewrite Hb, !constructActiveSegment_tokens,
      <- ?app_assoc; reflexivity.
Qed.

Lemma braking_step_tokens (st : PwleState) (b : BrakingPwle.t)
    (st' : PwleState) :
  composePwle_segment st (braking b) = Next st' ->
  appends_braking st b st'.
Proof.
  intros H. apply braking_step in H as ((Hb & Hi & HpA & HpF) & _).
  unfold appends_braking. repeat split; try assumption.
  rewrite Hb, !constructBrakingSegment_tokens, <- app_assoc. reflexivity.
Qed.

(** C1 (as the code has it).  In a composition that the loop of
    [composePwle] accepts, an active segment [a] is encoded from the state
    [st] reached after its predecessors as follows.  When its start
    amplitude and start frequency both compare equal ([==] on [float]) to
    the previous end pair, the command gains the real token alone (T = the
    declared duration, L and F = the end values) and the segment index
    advances by 1.  Otherwise it gains first a token with T = 0 and L and F
    = the start values, then the real token under the next index, and the
    index advances by 2.  When [a] is directly followed by an active segment
    [b], the index advances across the pair by what [a] takes (1 or 2) plus
    what [b] takes (1 if [b] starts exactly where [a] ends, 2 otherwise): by
    2 or 3 when [a] itself continues its predecessor, by 3 or 4 when it does
    not. *)
Theorem composePwle_setup_token_iff_discontinuity
    (pre : list PrimitivePwle) (a : ActivePwle.t) (post : list PrimitivePwle)
    (final : PwleState) :
  composePwle_loop (pre ++ active a :: post) = Next final ->
  active_encoding pre a post.
Proof.
  unfold composePwle_loop. intros H.
  apply for_each_split in H as (st & st' & Hpre & Ha & Hpost).
  exists st, st'. split; [exact Hpre|]. split; [exact Ha|].
  pose proof (active_step _ _ _ Ha) as (_ & HpA & HpF & _).
  pose proof (active_step_tokens _ _ _ Ha) as Hta.
  split; [exact Hta|].
  intros b post' ->. rewrite for_each_cons in Hpost.
  destruct (composePwle_segment st' (active b)) as [st''|s] eqn:Hb;
    [|discriminate].
  exists st''. split; [reflexivity|].
  pose proof (active_step_tokens _ _ _ Hb) as Htb.
  assert (Hj : continues st' b = joins a b)
    by (unfold continues, joins; rewrite HpA, HpF; reflexivity).
  rewrite Hj in Htb. split; [exact Htb|].
  unfold appends_active in Hta, Htb.
  destruct (continues st a), (joins a b);
    destruct Hta as [_ Hia]; destruct Htb as [_ ->]; lia.
Qed.

Lemma composePwle_setup_token_iff_discontinuity_witness :
  (exists final,
     composePwle_loop
       ([] ++ active example_active :: [active example_follow]) = Next final)
  /\ active_encoding [] example_active [active example_follow].
Proof.
  assert (H : exists final,
             composePwle_loop
               ([] ++ active example_active :: [active example_follow])
             = Next final)
    by (eexists; vm_compute; reflexivity).
  split; [exact H|].
  destruct H as [final H].
  exact (composePwle_setup_token_iff_discontinuity
           [] example_active [active example_follow] final H).
Defined.

(** C1, as stated, fails: [example_follow] starts exactly where
    [example_active] ends, so no zero-duration token stands between them,
    yet across this pair the segment index advances from 0 to 3 and not by
    2, because the first segment takes a zero-duration token of its own
    (tokens 0 and 1 for [example_active], token 2 for [example_follow]). *)
Lemma composePwle_joined_pair_advances_by_three :
  joins example_active example_follow = true
  /\ segmentIdx pwle_start = 0
  /\ exists st,
       composePwle_loop [active example_active; active example_follow]
       = Next st
       /\ segmentIdx st = 3
       /\ pwleBuilder st =
            pwleBuilder pwle_start
            ++ active_token 0 0 f_zero RESONANT_FREQUENCY_HZ
            ++ active_token 1 100 f_half RESONANT_FREQUENCY_HZ
            ++ active_token 2 20 f_one PWLE_FREQUENCY_MAX_HZ.
Proof.
  split; [reflexivity|]. split; [reflexivity|].
  eexists. split; [vm_compute; reflexivity|].
  split; reflexivity.
Qed.

(** C2.  In a composition that the loop of [composePwle] accepts, a braking
    segment [b] always appends exactly two tokens, both with B = the braking
    type of [b] and L = F = 0: the first with T = 0, the second, under the
    next index, with T = the declared duration.  The segment index advances
    by 2 and both components of the previous-end pair become the sentinel
    [-1.0].  Any active segment that passes its checks in the resulting
    state fails the continuity test and gains a token with T = 0 and its
    start values before its real token. *)
Theorem composePwle_braking_two_tokens_and_reset
    (pre : list PrimitivePwle) (b : BrakingPwle.t) (post : list PrimitivePwle)
    (final : PwleState) :
  composePwle_loop (pre ++ braking b :: post) = Next final ->
  braking_encoding pre b.
Proof.
  unfold composePwle_loop. intros H.
  apply for_each_split in H as (st & st' & Hpre & Hb & _).
  exists st, st'. split; [exact Hpre|]. split; [exact Hb|].
  pose proof (braking_step_tokens _ _ _ Hb) as Hem.
  split; [exact Hem|].
  intros a st'' Ha.
  pose proof (active_step _ _ _ Ha) as (_ & _ & _ & _ & Hlvl & _).
  pose proof (active_step_tokens _ _ _ Ha) as Hta.
  destruct Hem as (_ & _ & HpA & _).
  assert (Hc : continues st' a = false).
  { unfold continues. rewrite HpA, (level_not_sentinel _ Hlvl). reflexivity. }
  split; [exact Hc|].
  rewrite Hc in Hta. exact Hta.
Qed.

Lemma composePwle_braking_two_tokens_and_reset_witness :
  (exists final,
     composePwle_loop
       ([active example_active] ++ braking example_braking
          :: [active example_follow]) = Next final)
  /\ braking_encoding [active example_active] example_braking.
Proof.
  assert (H : exists final,
             composePwle_loop
               ([active example_active] ++ braking example_braking
                  :: [active example_follow]) = Next final)
    by (eexists; vm_compute; reflexivity).
  split; [exact H|].
  destruct H as [final H].
  exact (composePwle_braking_two_tokens_and_reset
           [active example_active] example_braking [active example_follow]
           final H).
Defined.

(* ------------------------------------------------------------------ *)
(** ** Total duration *)

Lemma loop_accepts_bounds (composite : list PrimitivePwle) :
  forall st st',
    for_each composePwle_segment st composite = Next st' ->
    Forall (fun e =>
              pwle_duration e <= COMPOSE_PWLE_PRIMITIVE_DURATION_MAX_MS
              /\ match e with
                 | active _ => 0 <= pwle_duration e
                 | braking _ => True
                 end) composite.
Proof.
  induction composite as [|e l IH]; intros st st'; simpl; [constructor|].
  destruct (composePwle_segment st e) as [st1|s] eqn:E; simpl; [|discriminate].
  intros H. constructor; [|exact (IH _ _ H)].
  destruct e as [a|b]; simpl.
  - apply active_step in E as (_ & _ & _ & _ & _ & Hd). lia.
  - apply braking_step in E as (_ & _ & _ & Hd). lia.
Qed.

Lemma declared_total_bounds (composite : list PrimitivePwle) :
  Forall (fun e => 0 <= pwle_duration e
                   <= COMPOSE_PWLE_PRIMITIVE_DURATION_MAX_MS) composite ->
  0 <= declared_total composite
    <= COMPOSE_PWLE_PRIMITIVE_DURATION_MAX_MS * size composite.
Proof.
  unfold size, COMPOSE_PWLE_PRIMITIVE_DURATION_MAX_MS.
  induction 1 as [|e l He _ IH]; simpl declared_total.
  - simpl. lia.
  - unfold COMPOSE_PWLE_PRIMITIVE_DURATION_MAX_MS in He.
    rewrite length_cons, Nat2Z.inj_succ. lia.
Qed.

(** For every accepted composition the duration captured by the completion
    thread is the sum of the declared durations modulo [2^32]; it is the
    exact sum as soon as no braking segment declares a negative duration. *)
Lemma composePwle_total_duration (composite : list PrimitivePwle)
    (callback : option IVibratorCallback) (w : World) :
  fst (composePwle composite callback w) = ok ->
  composePwle composite callback w =
    (ok, w ++ [Detach (ComposePwleThread (uint32 (declared_total composite))
                         callback)])
  /\ (Forall (fun e => 0 <= pwle_duration e) composite ->
      uint32 (declared_total composite) = declared_total composite).
Proof.
  intros H. apply composePwle_ok_inv in H as (Hsz & st & HL & ->).
  pose proof (composePwle_loop_total _ _ HL) as [-> _].
  split; [reflexivity|].
  intros Hpos. unfold uint32. apply Z.mod_small.
  pose proof (loop_accepts_bounds _ _ _ HL) as Hb.
  assert (HF : Forall (fun e => 0 <= pwle_duration e
                                <= COMPOSE_PWLE_PRIMITIVE_DURATION_MAX_MS)
                 composite).
  { rewrite Forall_forall in *. intros e He.
    specialize (Hb e He). specialize (Hpos e He). lia. }
  apply declared_total_bounds in HF.
  unfold COMPOSE_PWLE_SIZE_MAX, COMPOSE_PWLE_PRIMITIVE_DURATION_MAX_MS in *.
  lia.
Qed.

(** C3.  The single braking segment of type NONE and duration [-1] passes
    every check of [composePwle]; the completion thread then captures
    [4294967295] although the declared durations sum to [-1]. *)
Theorem composePwle_negative_braking_total
    (callback : option IVibratorCallback) (w : World) :
  composePwle [braking negative_braking] callback w =
    (ok, w ++ [Detach (ComposePwleThread 4294967295 callback)])
  /\ declared_total [braking negative_braking] = -1.
Proof. split; reflexivity. Qed.

(** C8.  [composePwle] accepts a composition whose only segment is a
    braking segment of negative duration, whereas the same duration in an
    active segment is rejected with [EX_ILLEGAL_ARGUMENT]. *)
Theorem composePwle_accepts_negative_braking_duration :
  BrakingPwle.duration negative_braking < 0
  /\ fst (composePwle [braking negative_braking] None []) = ok
  /\ fst (composePwle
            [active (ActivePwle.mk f_zero RESONANT_FREQUENCY_HZ f_half
                       RESONANT_FREQUENCY_HZ (-1))] None [])
     = fromExceptionCode EX_ILLEGAL_ARGUMENT.
Proof. repeat split. Qed.

(** C4.  The composition [[Active(100 ms, amplitude 0.0 to 0.5, frequency
    150 to 150); Braking(50 ms, CLAB)]] is accepted with a total duration of
    150; its command is the header followed by four tokens with the segment
    indices 0, 1, 2 and 3: the zero-duration token and the real token of the
    active segment, then the two braking tokens. *)
Theorem composePwle_example :
  (forall callback w,
     composePwle example_pwle callback w =
       (ok, w ++ [Detach (ComposePwleThread 150 callback)]))
  /\ exists st,
       composePwle_loop example_pwle = Next st
       /\ totalDuration st = 150
       /\ segmentIdx st = 4
       /\ token_indices (pwleBuilder st) = [0; 1; 2; 3]
       /\ pwleBuilder st =
            constructBrakingSegment
              (constructBrakingSegment
                 (constructActiveSegment
                    (constructActiveSegment ([] << pwle_header) 0 0
                       f_zero RESONANT_FREQUENCY_HZ)
                    1 100 f_half RESONANT_FREQUENCY_HZ)
                 2 0 Braking.CLAB)
              3 50 Braking.CLAB.
Proof.
  split; [reflexivity|].
  eexists. split; [vm_compute; reflexivity|].
  repeat split.
Qed.

(* ------------------------------------------------------------------ *)
(** ** Validation *)

(** C5.  [composePwle] answers [EX_ILLEGAL_ARGUMENT] to the empty
    composition and to every composition of more than 127 segments, without
    any effect; it succeeds on every composition of 1 to 127 segments whose
    active segments have a duration in [[0, 16383]], amplitudes in [[0, 1]]
    and frequencies in [[140, 160]], and whose braking segments have a type
    at most CLAB and a duration at most 16383. *)
Theorem composePwle_size_and_ranges (composite : list PrimitivePwle)
    (callback : option IVibratorCallback) (w : World) :
  (size composite = 0 ->
   composePwle composite callback w = (fromExceptionCode EX_ILLEGAL_ARGUMENT, w))
  /\ (COMPOSE_PWLE_SIZE_MAX < size composite ->
      composePwle composite callback w
      = (fromExceptionCode EX_ILLEGAL_ARGUMENT, w))
  /\ (1 <= size composite <= COMPOSE_PWLE_SIZE_MAX ->
      Forall pwle_in_range composite ->
      fst (composePwle composite callback w) = ok).
Proof.
  unfold composePwle, getPwleCompositionSizeMax. repeat split.
  - intros ->. reflexivity.
  - intros H. replace (size composite >? COMPOSE_PWLE_SIZE_MAX) with true
      by (symmetry; rewrite Z.gtb_ltb; apply Z.ltb_lt; exact H).
    rewrite orb_true_r. reflexivity.
  - intros Hsz HF.
    replace (size composite <=? 0) with false
      by (symmetry; apply Z.leb_gt; lia).
    replace (size composite >? COMPOSE_PWLE_SIZE_MAX) with false
      by (symmetry; rewrite Z.gtb_ltb; apply Z.ltb_ge; lia).
    simpl. unfold composePwle_loop.
    destruct (for_each_Forall composePwle_segment pwle_in_range
                segment_in_range_passes composite pwle_start HF) as [st ->].
    reflexivity.
Qed.

Lemma composePwle_size_and_ranges_witness :
  composePwle [] None [] = (fromExceptionCode EX_ILLEGAL_ARGUMENT, [])
  /\ composePwle (repeat (braking example_braking) 128) None []
     = (fromExceptionCode EX_ILLEGAL_ARGUMENT, [])
  /\ fst (composePwle example_pwle None []) = ok.
Proof.
  split; [|split].
  - apply (proj1 (composePwle_size_and_ranges [] None [])). reflexivity.
  - apply (proj1 (proj2 (composePwle_size_and_ranges
                           (repeat (braking example_braking) 128) None []))).
    vm_compute. reflexivity.
  - apply (proj2 (proj2 (composePwle_size_and_ranges example_pwle None []))).
    + vm_compute. split; discriminate.
    + repeat constructor; vm_compute; discriminate.
Defined.

Lemma not_found_false_iff (x : Z) (v : list Z) :
  not_found x v = false <-> In x v.
Proof.
  unfold not_found. rewrite negb_false_iff, existsb_exists. split.
  - intros (y & Hy & Heq). apply Z.eqb_eq in Heq. subst. exact Hy.
  - intros H. exists x. split; [exact H | apply Z.eqb_refl].
Qed.

Lemma not_found_true_iff (x : Z) (v : list Z) :
  not_found x v = true <-> ~ In x v.
Proof.
  rewrite <- not_found_false_iff. destruct (not_found x v); split;
    congruence.
Qed.

Lemma compose_check_passes (e : CompositeEffect.t) :
  compose_entry_passes e ->
  compose_check getSupportedPrimitives tt e = Next tt.
Proof.
  intros (Hd & Hlo & Hhi & Hin). unfold compose_check.
  replace (CompositeEffect.delayMs e >? COMPOSE_DELAY_MAX_MS) with false
    by (symmetry; rewrite Z.gtb_ltb; apply Z.ltb_ge; exact Hd).
  rewrite Hlo, Hhi. simpl.
  apply not_found_false_iff in Hin. rewrite Hin. reflexivity.
Qed.

Lemma compose_loop_passes (composite : list CompositeEffect.t) :
  Forall compose_entry_passes composite ->
  for_each (compose_check getSupportedPrimitives) tt composite = Next tt.
Proof.
  induction 1 as [|e l He _ IH]; simpl; [reflexivity|].
  rewrite (compose_check_passes e He). simpl. exact IH.
Qed.

Lemma compose_loop_first_failure (pre post : list CompositeEffect.t)
    (e : CompositeEffect.t) (s : ScopedAStatus) :
  Forall compose_entry_passes pre ->
  compose_check getSupportedPrimitives tt e = Return s ->
  for_each (compose_check getSupportedPrimitives) tt (pre ++ e :: post)
  = Return s.
Proof.
  intros Hpre He. rewrite for_each_app, (compose_loop_passes pre Hpre).
  simpl. rewrite He. reflexivity.
Qed.

(** C6 (as the code has it).  [compose] answers [EX_ILLEGAL_ARGUMENT] to a
    composition of more than 256 entries and accepts the empty one.
    Otherwise the entries are checked in order and the first entry that
    fails a check decides: [EX_ILLEGAL_ARGUMENT] when its [delayMs] exceeds
    1000 or its [scale] compares less than 0 or greater than 1, else
    [EX_UNSUPPORTED_OPERATION] when its primitive is not a supported one.
    When every entry passes, [compose] succeeds and detaches the playback
    thread.  A NaN [scale] compares neither way and passes. *)
Theorem compose_validation (composite : list CompositeEffect.t)
    (callback : option IVibratorCallback) (w : World) :
  (COMPOSE_SIZE_MAX < size composite ->
   compose composite callback w = (fromExceptionCode EX_ILLEGAL_ARGUMENT, w))
  /\ compose [] callback w = (ok, w ++ [Detach (ComposeThread [] callback)])
  /\ (size composite <= COMPOSE_SIZE_MAX ->
      forall pre e post,
        composite = pre ++ e :: post ->
        Forall compose_entry_passes pre ->
        (COMPOSE_DELAY_MAX_MS < CompositeEffect.delayMs e
         \/ flt (CompositeEffect.scale e) f_zero = true
         \/ fgt (CompositeEffect.scale e) f_one = true ->
         compose composite callback w
         = (fromExceptionCode EX_ILLEGAL_ARGUMENT, w))
        /\ (CompositeEffect.delayMs e <= COMPOSE_DELAY_MAX_MS ->
            flt (CompositeEffect.scale e) f_zero = false ->
            fgt (CompositeEffect.scale e) f_one = false ->
            ~ In (CompositeEffect.primitive e) getSupportedPrimitives ->
            compose composite callback w
            = (fromExceptionCode EX_UNSUPPORTED_OPERATION, w)))
  /\ (size composite <= COMPOSE_SIZE_MAX ->
      Forall compose_entry_passes composite ->
      compose composite callback w
      = (ok, w ++ [Detach (ComposeThread composite callback)]))
  /\ compose_entry_passes nan_scale_entry.
Proof.
  split; [|split; [|split; [|split]]].
  - intros H. unfold compose.
    replace (size composite >? COMPOSE_SIZE_MAX) with true
      by (symmetry; rewrite Z.gtb_ltb; apply Z.ltb_lt; exact H).
    reflexivity.
  - reflexivity.
  - intros Hsz pre e post -> Hpre. unfold compose.
    replace (size (pre ++ e :: post) >? COMPOSE_SIZE_MAX) with false
      by (symmetry; rewrite Z.gtb_ltb; apply Z.ltb_ge; exact Hsz).
    split.
    + intros Hbad.
      rewrite (compose_loop_first_failure pre post e
                 (fromExceptionCode EX_ILLEGAL_ARGUMENT) Hpre); [reflexivity|].
      unfold compose_check.
      destruct (CompositeEffect.delayMs e >? COMPOSE_DELAY_MAX_MS) eqn:Ed;
        [reflexivity|].
      rewrite Z.gtb_ltb in Ed. apply Z.ltb_ge in Ed.
      destruct Hbad as [Hd | [Hlo | Hhi]]; [lia | rewrite Hlo | rewrite Hhi].
      * reflexivity.
      * rewrite orb_true_r. reflexivity.
    + intros Hd Hlo Hhi Hin.
      rewrite (compose_loop_first_failure pre post e
                 (fromExceptionCode EX_UNSUPPORTED_OPERATION) Hpre);
        [reflexivity|].
      unfold compose_check.
      replace (CompositeEffect.delayMs e >? COMPOSE_DELAY_MAX_MS) with false
        by (symmetry; rewrite Z.gtb_ltb; apply Z.ltb_ge; exact Hd).
      rewrite Hlo, Hhi. simpl.
      apply not_found_true_iff in Hin. rewrite Hin. reflexivity.
  - intros Hsz HF. unfold compose.
    replace (size composite >? COMPOSE_SIZE_MAX) with false
      by (symmetry; rewrite Z.gtb_ltb; apply Z.ltb_ge; exact Hsz).
    rewrite (compose_loop_passes composite HF). reflexivity.
  - unfold compose_entry_passes.
    split; [vm_compute; discriminate|].
    split; [reflexivity|]. split; [reflexivity|].
    right. left. reflexivity.
Qed.

Lemma compose_validation_witness :
  compose (repeat nan_scale_entry 257) None []
    = (fromExceptionCode EX_ILLEGAL_ARGUMENT, [])
  /\ compose [nan_scale_entry;
              CompositeEffect.mk 1001 CompositePrimitive.CLICK f_one] None []
     = (fromExceptionCode EX_ILLEGAL_ARGUMENT, [])
  /\ compose [nan_scale_entry;
              CompositeEffect.mk 1000 9 f_one] None []
     = (fromExceptionCode EX_UNSUPPORTED_OPERATION, [])
  /\ compose [nan_scale_entry] (Some 7%nat) []
     = (ok, [Detach (ComposeThread [nan_scale_entry] (Some 7%nat))]).
Proof.
  pose proof (proj2 (proj2 (proj2 (proj2
    (compose_validation [] None []))))) as Hnan.
  split; [|split; [|split]].
  - apply (proj1 (compose_validation (repeat nan_scale_entry 257) None [])).
    vm_compute. reflexivity.
  - refine (proj1 (proj1 (proj2 (proj2 (compose_validation
              [nan_scale_entry;
               CompositeEffect.mk 1001 CompositePrimitive.CLICK f_one]
              None [])))
            _ [nan_scale_entry]
            (CompositeEffect.mk 1001 CompositePrimitive.CLICK f_one) []
            eq_refl _) _).
    + vm_compute. discriminate.
    + constructor; [exact Hnan | constructor].
    + left. vm_compute. reflexivity.
  - refine (proj2 (proj1 (proj2 (proj2 (compose_validation
              [nan_scale_entry; CompositeEffect.mk 1000 9 f_one] None [])))
            _ [nan_scale_entry] (CompositeEffect.mk 1000 9 f_one) []
            eq_refl _) _ _ _ _).
    + vm_compute. discriminate.
    + constructor; [exact Hnan | constructor].
    + vm_compute. discriminate.
    + reflexivity.
    + reflexivity.
    + vm_compute. intuition discriminate.
  - refine (proj1 (proj2 (proj2 (proj2 (compose_validation
              [nan_scale_entry] (Some 7%nat) [])))) _ _).
    + vm_compute. discriminate.
    + constructor; [exact Hnan | constructor].
Defined.

(** C6, as stated, fails: the entry [(CLICK, delayMs = 0, scale = NaN)] has
    a scale that does not lie in [[0, 1]], yet [compose] accepts the
    composition made of it and detaches the playback thread. *)
Lemma compose_accepts_nan_scale :
  fbetween f_zero f_one (CompositeEffect.scale nan_scale_entry) = false
  /\ compose [nan_scale_entry] None []
     = (ok, [Detach (ComposeThread [nan_scale_entry] None)]).
Proof. split; reflexivity. Qed.

(* ------------------------------------------------------------------ *)
(** ** Effects *)

(** C7.  When [compose] or [composePwle] does not return [ok], the trace of
    effects is returned unchanged: the call wrote no sysfs node and detached
    no thread, so no thread of this call ever sleeps or reaches
    [onComplete]. *)
Theorem validation_failure_has_no_effect
    (composite : list CompositeEffect.t) (pwle : list PrimitivePwle)
    (callback : option IVibratorCallback) (w : World) :
  (fst (compose composite callback w) <> ok ->
   snd (compose composite callback w) = w)
  /\ (fst (composePwle pwle callback w) <> ok ->
      snd (composePwle pwle callback w) = w).
Proof.
  split.
  - unfold compose.
    destruct (size composite >? COMPOSE_SIZE_MAX); [reflexivity|].
    destruct (for_each _ tt composite); simpl; [congruence | reflexivity].
  - unfold composePwle.
    destruct (_ || _); [reflexivity|].
    destruct (composePwle_loop pwle); simpl; [congruence | reflexivity].
Qed.

Lemma validation_failure_has_no_effect_witness :
  snd (compose [CompositeEffect.mk 1001 CompositePrimitive.CLICK f_one]
         (Some 7%nat) [FileWrite ACTIVATE_NODE 0])
    = [FileWrite ACTIVATE_NODE 0]
  /\ snd (composePwle [braking example_braking; braking (BrakingPwle.mk 2 10)]
            (Some 7%nat) [FileWrite ACTIVATE_NODE 0])
     = [FileWrite ACTIVATE_NODE 0].
Proof.
  split.
  - apply (proj1 (validation_failure_has_no_effect
                    [CompositeEffect.mk 1001 CompositePrimitive.CLICK f_one]
                    [] (Some 7%nat) [FileWrite ACTIVATE_NODE 0])).
    vm_compute. discriminate.
  - apply (proj2 (validation_failure_has_no_effect
                    []
                    [braking example_braking; braking (BrakingPwle.mk 2 10)]
                    (Some 7%nat) [FileWrite ACTIVATE_NODE 0])).
    vm_compute. discriminate.
Defined.

(** The HAL does not advertise PWLE composition. *)
Lemma capabilities_without_pwle :
  Z.land getCapabilities IVibrator.CAP_COMPOSE_PWLE_EFFECTS = 0
  /\ Z.land getCapabilities IVibrator.CAP_COMPOSE_EFFECTS = 0.
Proof. split; reflexivity. Qed.

(** C9 (as the code has it).  For every composition it accepts,
    [composePwle] assembles the command in its local stream, the header
    [S:0,WF:4,RP:0,WT:0] first and the segment tokens after it, and its only
    effect is to detach the completion thread with the accumulated
    duration: the set of sysfs writes is unchanged. *)
Theorem composePwle_builds_command_without_writing
    (composite : list PrimitivePwle) (callback : option IVibratorCallback)
    (w : World) :
  fst (composePwle composite callback w) = ok ->
  exists st tokens,
    composePwle_loop composite = Next st
    /\ pwleBuilder st = InsStr pwle_header :: tokens
    /\ snd (composePwle composite callback w)
       = w ++ [Detach (ComposePwleThread (totalDuration st) callback)]
    /\ writes (snd (composePwle composite callback w)) = writes w.
Proof.
  intros H. apply composePwle_ok_inv in H as (_ & st & HL & Heq).
  assert (Hhead : forall l st0 st1,
             for_each composePwle_segment st0 l = Next st1 ->
             forall t0, pwleBuilder st0 = InsStr pwle_header :: t0 ->
             exists t1, pwleBuilder st1 = InsStr pwle_header :: t1).
  { induction l as [|e l IH]; intros st0 st1; simpl.
    - intros [= <-] t0 Ht0. eauto.
    - destruct (composePwle_segment st0 e) as [st2|s] eqn:E; simpl;
        [|discriminate].
      intros Hl t0 Ht0. 
      assert (exists t2, pwleBuilder st2 = InsStr pwle_header :: t2) as [t2 Ht2].
      { destruct e as [a|b].
        - apply active_step in E as (Hem & _). unfold emits_active in Hem.
          destruct (continues st0 a); destruct Hem as [-> _]; rewrite Ht0;
            eexists; reflexivity.
        - apply braking_step in E as ((-> & _) & _). rewrite Ht0.
          eexists; reflexivity. }
      exact (IH _ _ Hl _ Ht2). }
  destruct (Hhead _ _ _ HL [] eq_refl) as [tokens Htok].
  exists st, tokens. rewrite Heq. simpl.
  repeat split; try assumption.
  unfold writes. rewrite filter_app. simpl. apply app_nil_r.
Qed.

Lemma composePwle_builds_command_without_writing_witness :
  fst (composePwle example_pwle None []) = ok
  /\ exists st tokens,
       composePwle_loop example_pwle = Next st
       /\ pwleBuilder st = InsStr pwle_header :: tokens
       /\ snd (composePwle example_pwle None [])
          = [] ++ [Detach (ComposePwleThread (totalDuration st) None)]
       /\ writes (snd (composePwle example_pwle None [])) = writes [].
Proof.
  split; [reflexivity|].
  apply (composePwle_builds_command_without_writing example_pwle None []).
  reflexivity.
Defined.

(** C9, as stated, fails: the accepted composition of the example leaves a
    trace that holds the detached completion thread and no write to any
    node. *)
Lemma composePwle_example_writes_nothing :
  composePwle example_pwle None []
    = (ok, [Detach (ComposePwleThread 150 None)])
  /\ writes (snd (composePwle example_pwle None [])) = []
  /\ ~ exists path value,
         In (FileWrite path value) (snd (composePwle example_pwle None [])).
Proof.
  split; [reflexivity|]. split; [reflexivity|].
  intros (path & value & [H | []]). discriminate.
Qed.

(** C10.  [perform] with the effect POP writes the waveform index of TICK
    (1) to the index node, then the duration 15 and the activation, returns
    [ok] and reports 15 ms; TICK selects the same index.  For every effect
    that is not in the list of [getSupportedEffects] it returns
    [EX_UNSUPPORTED_OPERATION], assigns no duration and leaves the trace
    unchanged. *)
Theorem perform_pop_and_unsupported (strength : EffectStrength.t)
    (callback : option IVibratorCallback) (w : World) :
  perform Effect.POP strength callback w =
    (ok, Some WAVEFORM_POP_EFFECT_MS,
     w ++ [FileWrite INDEX_NODE WAVEFORM_TICK_EFFECT_INDEX;
           FileWrite DURATION_NODE 15;
           FileWrite ACTIVATE_NODE 1]
       ++ callback_thread callback PerformThread)
  /\ WAVEFORM_POP_EFFECT_MS = 15
  /\ WAVEFORM_TICK_EFFECT_INDEX = 1
  /\ option_map fst (perform_switch Effect.POP)
     = option_map fst (perform_switch Effect.TICK)
  /\ forall effect,
       ~ In effect getSupportedEffects ->
       perform effect strength callback w
       = (fromExceptionCode EX_UNSUPPORTED_OPERATION, None, w).
Proof.
  split; [|split; [|split; [|split]]]; try reflexivity.
  - unfold perform, on, write_haptic_node, detach, callback_thread. simpl.
    destruct callback; simpl; rewrite <- !app_assoc; reflexivity.
  - intros effect Hnot. unfold perform.
    assert (Hsw : perform_switch effect = None).
    { unfold perform_switch.
      repeat match goal with
             | |- context [effect =? ?c] =>
                 destruct (Z.eqb_spec effect c) as [->|_];
                 [exfalso; apply Hnot; simpl; tauto|]
             end.
      reflexivity. }
    rewrite Hsw. reflexivity.
Qed.

Lemma perform_pop_and_unsupported_witness :
  perform Effect.RINGTONE_1 EffectStrength.MEDIUM (Some 7%nat) []
  = (fromExceptionCode EX_UNSUPPORTED_OPERATION, None, []).
Proof.
  apply (proj2 (proj2 (proj2 (proj2
    (perform_pop_and_unsupported EffectStrength.MEDIUM (Some 7%nat) []))))).
  vm_compute. intuition discriminate.
Defined.

(** The completion thread of [composePwle] sleeps once, for the captured
    duration converted to microseconds on 32 bits, and then notifies the
    callback if there is one. *)
Lemma composePwle_thread_body (kEffectMillis totalDuration : Z)
    (callback : option IVibratorCallback) :
  thread_body kEffectMillis (ComposePwleThread totalDuration callback)
  = Usleep (uint32 (totalDuration * 1000)) :: notify callback.
Proof. reflexivity. Qed.

(** No thread body reaches [onComplete] more than once. *)
Lemma thread_notifies_at_most_once (kEffectMillis : Z) (t : Thread) :
  (List.length
     (filter (fun op => match op with OnComplete _ => true | Usleep _ => false end)
        (thread_body kEffectMillis t)) <= 1)%nat.
Proof.
  assert (Hplay : forall l,
             filter (fun op => match op with
                               | OnComplete _ => true
                               | Usleep _ => false
                               end) (flat_map compose_play l) = []).
  { induction l as [|e l IH]; simpl; [reflexivity|].
    rewrite filter_app, IH, app_nil_r. unfold compose_play.
    rewrite filter_app. destruct (negb _); reflexivity. }
  destruct t as [ms cb|cb|l [cb|]|d [cb|]]; simpl;
    try rewrite filter_app; try rewrite Hplay; simpl; lia.
Qed.

(* ================================================================== *)
(** * Further properties of the HAL *)

(** ** Named effects *)

Lemma perform_switch_cases (effect : Effect.t) :
  (In effect getSupportedEffects
   /\ exists index timeMs,
        perform_switch effect = Some (index, timeMs)
        /\ 1 <= index <= 7 /\ 10 <= timeMs <= 60)
  \/ (~ In effect getSupportedEffects /\ perform_switch effect = None).
Proof.
  unfold perform_switch.
  repeat match goal with
         | |- context [effect =? ?c] =>
             destruct (Z.eqb_spec effect c) as [->|?];
             [left; split; [simpl; tauto|];
              eexists; eexists; split; [reflexivity|];
              vm_compute; intuition discriminate|]
         end.
  right. split; [|reflexivity].
  simpl. intuition congruence.
Qed.

Lemma not_found_effect_iff (effect : Effect.t) (l : list Effect.t) :
  not_found effect l = false <-> In effect l.
Proof. apply not_found_false_iff. Qed.

(** X1.  [perform] returns [ok] exactly for the effects listed by
    [getSupportedEffects], and [alwaysOnEnable] exactly for those listed by
    [getSupportedAlwaysOnEffects], which is the same list.  For every other
    effect value both return [EX_UNSUPPORTED_OPERATION]; [perform] then
    assigns no duration and leaves the trace unchanged. *)
Theorem supported_effects_are_the_accepted_ones
    (effect : Effect.t) (strength : EffectStrength.t)
    (callback : option IVibratorCallback) (w : World) (id : Z) :
  (fst (fst (perform effect strength callback w)) = ok
   <-> In effect getSupportedEffects)
  /\ (alwaysOnEnable id effect strength = ok
      <-> In effect getSupportedAlwaysOnEffects)
  /\ getSupportedAlwaysOnEffects = getSupportedEffects
  /\ (~ In effect getSupportedEffects ->
      perform effect strength callback w
      = (fromExceptionCode EX_UNSUPPORTED_OPERATION, None, w)
      /\ alwaysOnEnable id effect strength
         = fromExceptionCode EX_UNSUPPORTED_OPERATION).
Proof.
  split; [|split; [|split; [reflexivity|]]].
  - unfold perform.
    destruct (perform_switch_cases effect)
      as [(Hin & index & t & -> & _) | (Hnot & ->)]; simpl.
    + tauto.
    + split; [discriminate | contradiction].
  - unfold alwaysOnEnable.
    destruct (not_found effect getSupportedAlwaysOnEffects) eqn:E.
    + apply not_found_true_iff in E. split; [discriminate | contradiction].
    + apply not_found_false_iff in E. tauto.
  - intros Hnot. split.
    + unfold perform.
      destruct (perform_switch_cases effect)
        as [(Hin & _) | (_ & ->)]; [contradiction | reflexivity].
    + unfold alwaysOnEnable, getSupportedAlwaysOnEffects.
      apply not_found_true_iff in Hnot. rewrite Hnot. reflexivity.
Qed.

Lemma supported_effects_are_the_accepted_ones_witness :
  perform Effect.RINGTONE_15 EffectStrength.LIGHT (Some 7%nat) []
  = (fromExceptionCode EX_UNSUPPORTED_OPERATION, None, [])
  /\ alwaysOnEnable 3 Effect.RINGTONE_15 EffectStrength.LIGHT
     = fromExceptionCode EX_UNSUPPORTED_OPERATION.
Proof.
  apply (proj2 (proj2 (proj2
    (supported_effects_are_the_accepted_ones
       Effect.RINGTONE_15 EffectStrength.LIGHT (Some 7%nat) [] 3)))).
  vm_compute. intuition discriminate.
Defined.

(** X2.  For a supported effect, [perform] writes the waveform index, then
    the duration, then the activation, in this order, and detaches the
    notification thread only if a callback is given; the duration it reports
    is the one it wrote to the duration node.  The index lies in [[1, 7]]
    and the duration in [[10, 60]]. *)
Theorem perform_writes_index_duration_activation
    (effect : Effect.t) (strength : EffectStrength.t)
    (callback : option IVibratorCallback) (w : World) :
  In effect getSupportedEffects ->
  exists index timeMs,
    perform effect strength callback w =
      (ok, Some timeMs,
       w ++ [FileWrite INDEX_NODE index;
             FileWrite DURATION_NODE timeMs;
             FileWrite ACTIVATE_NODE 1]
         ++ callback_thread callback PerformThread)
    /\ 1 <= index <= 7 /\ 10 <= timeMs <= 60.
Proof.
  intros Hin. unfold perform.
  destruct (perform_switch_cases effect)
    as [(_ & index & t & -> & Hi & Ht) | (Hnot & _)]; [|contradiction].
  exists index, t. split; [|split; assumption].
  unfold on, write_haptic_node, detach, callback_thread. simpl.
  destruct callback; simpl; rewrite <- !app_assoc; reflexivity.
Qed.

Lemma perform_writes_index_duration_activation_witness :
  exists index timeMs,
    perform Effect.THUD EffectStrength.STRONG (Some 7%nat) [] =
      (ok, Some timeMs,
       [] ++ [FileWrite INDEX_NODE index;
              FileWrite DURATION_NODE timeMs;
              FileWrite ACTIVATE_NODE 1]
          ++ callback_thread (Some 7%nat) PerformThread)
    /\ 1 <= index <= 7 /\ 10 <= timeMs <= 60.
Proof.
  apply (perform_writes_index_duration_activation
           Effect.THUD EffectStrength.STRONG (Some 7%nat) []).
  simpl. tauto.
Defined.

(** X3.  Two effects that [perform] maps to the same waveform index are the
    same effect, or are TICK and POP. *)
Theorem perform_index_shared_only_by_tick_and_pop
    (e1 e2 : Effect.t) (index t1 t2 : Z) :
  perform_switch e1 = Some (index, t1) ->
  perform_switch e2 = Some (index, t2) ->
  e1 = e2
  \/ ((e1 = Effect.TICK \/ e1 = Effect.POP)
      /\ (e2 = Effect.TICK \/ e2 = Effect.POP)).
Proof.
  unfold perform_switch.
  repeat match goal with
         | |- context [e1 =? ?c] => destruct (Z.eqb_spec e1 c) as [->|?]
         end;
    repeat match goal with
           | |- context [e2 =? ?c] => destruct (Z.eqb_spec e2 c) as [->|?]
           end;
    intros H1 H2; try discriminate;
    inversion H1; subst; inversion H2; subst; auto.
Qed.

Lemma perform_index_shared_only_by_tick_and_pop_witness :
  Effect.POP = Effect.TICK
  \/ ((Effect.POP = Effect.TICK \/ Effect.POP = Effect.POP)
      /\ (Effect.TICK = Effect.TICK \/ Effect.TICK = Effect.POP)).
Proof.
  apply (perform_index_shared_only_by_tick_and_pop
           Effect.POP Effect.TICK 1 15 10); reflexivity.
Defined.

(** ** Content of the sysfs nodes *)

Lemma node_value_app (path : string) (w w' : World) :
  node_value path (w ++ w') =
  match node_value path w' with
  | Some v => Some v
  | None => node_value path w
  end.
Proof.
  induction w as [|a w IH]; simpl.
  - destruct (node_value path w'); reflexivity.
  - rewrite IH. destruct (node_value path w'); reflexivity.
Qed.

(** X4.  After [off], the index node and the activation node both hold 0,
    whatever was written before, and the duration node is unchanged. *)
Theorem off_resets_index_and_activation (w : World) :
  fst (off w) = ok
  /\ node_value INDEX_NODE (snd (off w)) = Some 0
  /\ node_value ACTIVATE_NODE (snd (off w)) = Some 0
  /\ node_value DURATION_NODE (snd (off w)) = node_value DURATION_NODE w.
Proof.
  unfold off, write_haptic_node. simpl fst. simpl snd.
  rewrite <- app_assoc. simpl app.
  repeat split; rewrite node_value_app; reflexivity.
Qed.

(** X5.  [on] stores the timeout in the duration node and 1 in the
    activation node, and never touches the index node: called after
    [perform] without an [off] in between, it leaves the waveform index of
    that effect selected. *)
Theorem on_leaves_the_index_node
    (timeoutMs : Z) (callback : option IVibratorCallback) (w : World) :
  (node_value INDEX_NODE (snd (on timeoutMs callback w))
   = node_value INDEX_NODE w
   /\ node_value DURATION_NODE (snd (on timeoutMs callback w)) = Some timeoutMs
   /\ node_value ACTIVATE_NODE (snd (on timeoutMs callback w)) = Some 1)
  /\ forall effect strength cb index timeMs,
       perform_switch effect = Some (index, timeMs) ->
       node_value INDEX_NODE
         (snd (on timeoutMs callback (snd (perform effect strength cb w))))
       = Some index.
Proof.
  assert (Hon : forall w0,
             node_value INDEX_NODE (snd (on timeoutMs callback w0))
             = node_value INDEX_NODE w0
             /\ node_value DURATION_NODE (snd (on timeoutMs callback w0))
                = Some timeoutMs
             /\ node_value ACTIVATE_NODE (snd (on timeoutMs callback w0))
                = Some 1).
  { intros w0. unfold on, write_haptic_node, detach. simpl snd.
    destruct callback as [cb|]; rewrite <- ?app_assoc; simpl app;
      repeat split; rewrite node_value_app; reflexivity. }
  split; [apply Hon|].
  intros effect strength cb index timeMs Hsw.
  rewrite (proj1 (Hon _)).
  unfold perform. rewrite Hsw.
  unfold on, write_haptic_node, detach. simpl snd.
  destruct cb as [c|]; rewrite <- ?app_assoc; simpl app;
    rewrite node_value_app; reflexivity.
Qed.

Lemma on_leaves_the_index_node_witness :
  node_value INDEX_NODE
    (snd (on 500 None
            (snd (perform Effect.THUD EffectStrength.STRONG None []))))
  = Some 7.
Proof.
  apply (proj2 (on_leaves_the_index_node 500 None [])
           Effect.THUD EffectStrength.STRONG None 7 35).
  reflexivity.
Defined.

(** ** Amplitude *)

Lemma SFcompare_None_iff (a b : float) :
  SFcompare a b = None <-> a = S754_nan \/ b = S754_nan.
Proof.
  destruct a as [sa|sa| |sa ma ea], b as [sb|sb| |sb mb eb];
    split; intros H; try discriminate H; auto;
    destruct H as [H|H]; discriminate H.
Qed.

(** X6.  [setAmplitude] returns [ok] exactly when the amplitude is greater
    than 0 and at most 1, or is NaN; for every other value, 0 included, it
    returns [EX_ILLEGAL_ARGUMENT]. *)
Theorem setAmplitude_ok_iff (amplitude : float) :
  (setAmplitude amplitude = ok
   <-> amplitude = NaN
       \/ (flt f_zero amplitude = true /\ fle amplitude f_one = true))
  /\ (setAmplitude amplitude = ok
      \/ setAmplitude amplitude = fromExceptionCode EX_ILLEGAL_ARGUMENT)
  /\ setAmplitude f_zero = fromExceptionCode EX_ILLEGAL_ARGUMENT.
Proof.
  split; [|split; [|reflexivity]].
  - unfold setAmplitude, fle, fgt, flt, SFleb, SFltb, NaN.
    destruct (SFcompare amplitude f_zero) as [c0|] eqn:E0.
    + assert (Hn : amplitude <> S754_nan)
        by (intros ->; discriminate E0).
      rewrite (SFcompare_antisym _ _ _ E0).
      destruct (SFcompare f_one amplitude) as [c1|] eqn:E1.
      * rewrite (SFcompare_antisym _ _ _ E1).
        destruct c0, c1; simpl; split; intros H;
          try discriminate H; try (right; split; reflexivity);
          try reflexivity;
          destruct H as [H | [H1 H2]]; try contradiction;
          try discriminate H1; try discriminate H2.
      * apply SFcompare_None_iff in E1 as [E1 | E1];
          [discriminate E1 | contradiction].
    + apply SFcompare_None_iff in E0 as [-> | E0]; [|discriminate E0].
      split; [intros _; left; reflexivity | intros _; reflexivity].
  - unfold setAmplitude.
    destruct (fle amplitude f_zero || fgt amplitude f_one); auto.
Qed.

(** ** Primitive compositions *)

Lemma compose_check_result (e : CompositeEffect.t) :
  (compose_entry_passes e
   /\ compose_check getSupportedPrimitives tt e = Next tt)
  \/ (~ compose_entry_passes e
      /\ exists code,
           compose_check getSupportedPrimitives tt e
           = Return (fromExceptionCode code)).
Proof.
  unfold compose_check, compose_entry_passes.
  destruct (CompositeEffect.delayMs e >? COMPOSE_DELAY_MAX_MS) eqn:Ed.
  - right. split; [|eauto].
    rewrite Z.gtb_ltb in Ed. apply Z.ltb_lt in Ed. lia.
  - rewrite Z.gtb_ltb in Ed. apply Z.ltb_ge in Ed.
    destruct (flt (CompositeEffect.scale e) f_zero) eqn:Elo; simpl.
    { right. split; [|eauto]. intros (_ & H & _). discriminate H. }
    destruct (fgt (CompositeEffect.scale e) f_one) eqn:Ehi; simpl.
    { right. split; [|eauto]. intros (_ & _ & H & _). discriminate H. }
    destruct (not_found (CompositeEffect.primitive e) getSupportedPrimitives)
      eqn:Ep.
    + right. split; [|eauto]. apply not_found_true_iff in Ep.
      intros (_ & _ & _ & H). exact (Ep H).
    + left. apply not_found_false_iff in Ep.
      split; [|reflexivity]. split; [exact Ed|].
      split; [reflexivity|]. split; [reflexivity | exact Ep].
Qed.

Lemma compose_loop_result (composite : list CompositeEffect.t) :
  (Forall compose_entry_passes composite
   /\ for_each (compose_check getSupportedPrimitives) tt composite = Next tt)
  \/ (~ Forall compose_entry_passes composite
      /\ exists code,
           for_each (compose_check getSupportedPrimitives) tt composite
           = Return (fromExceptionCode code)).
Proof.
  induction composite as [|e l IH].
  - left. split; [constructor | reflexivity].
  - rewrite for_each_cons.
    destruct (compose_check_result e) as [[He ->] | [He [code ->]]]; simpl.
    + destruct IH as [[Hl ->] | [Hl [code ->]]].
      * left. split; [constructor; assumption | reflexivity].
      * right. split; [|eauto]. intros H. inversion H. contradiction.
    + right. split; [|eauto]. intros H. inversion H. contradiction.
Qed.

(** X7.  [compose] succeeds exactly when the composition has at most 256
    entries and every entry has [delayMs <= 1000], a scale that compares
    neither below 0 nor above 1, and a supported primitive. *)
Theorem compose_ok_iff (composite : list CompositeEffect.t)
    (callback : option IVibratorCallback) (w : World) :
  fst (compose composite callback w) = ok
  <-> size composite <= COMPOSE_SIZE_MAX
      /\ Forall compose_entry_passes composite.
Proof.
  unfold compose.
  destruct (size composite >? COMPOSE_SIZE_MAX) eqn:Es.
  - rewrite Z.gtb_ltb in Es. apply Z.ltb_lt in Es. simpl.
    split; [discriminate | lia].
  - rewrite Z.gtb_ltb in Es. apply Z.ltb_ge in Es.
    destruct (compose_loop_result composite) as [[H ->] | [H [code ->]]];
      simpl.
    + tauto.
    + split; [discriminate | tauto].
Qed.

Lemma getPrimitiveDuration_supported (p : CompositePrimitive.t) :
  In p getSupportedPrimitives ->
  getPrimitiveDuration p = (ok, Some (primitive_ms p)).
Proof.
  intros H. apply not_found_false_iff in H.
  unfold getPrimitiveDuration, primitive_ms. rewrite H.
  destruct (p =? CompositePrimitive.NOOP); reflexivity.
Qed.

(** X8.  [getPrimitiveDuration] answers 0 for NOOP and 100 for every other
    supported primitive, and [EX_UNSUPPORTED_OPERATION] without a duration
    for any other value.  Every entry of a composition that [compose]
    accepts has a duration, so the playback thread never uses an unassigned
    [durationMs]. *)
Theorem accepted_primitives_have_a_duration
    (composite : list CompositeEffect.t)
    (callback : option IVibratorCallback) (w : World) :
  (forall p,
     (In p getSupportedPrimitives ->
      getPrimitiveDuration p
      = (ok, Some (if p =? CompositePrimitive.NOOP then 0 else 100)))
     /\ (~ In p getSupportedPrimitives ->
         getPrimitiveDuration p
         = (fromExceptionCode EX_UNSUPPORTED_OPERATION, None)))
  /\ (fst (compose composite callback w) = ok ->
      Forall (fun e =>
                exists d,
                  getPrimitiveDuration (CompositeEffect.primitive e)
                  = (ok, Some d) /\ (d = 0 \/ d = 100))
        composite).
Proof.
  split.
  - intros p. split.
    + apply getPrimitiveDuration_supported.
    + intros H. apply not_found_true_iff in H.
      unfold getPrimitiveDuration. rewrite H. reflexivity.
  - unfold compose.
    destruct (size composite >? COMPOSE_SIZE_MAX); [discriminate|].
    destruct (compose_loop_result composite) as [[H ->] | [H [code ->]]];
      simpl; [|discriminate].
    intros _. rewrite Forall_forall in *. intros e He.
    destruct (H e He) as (_ & _ & _ & Hin).
    exists (primitive_ms (CompositeEffect.primitive e)).
    split; [apply getPrimitiveDuration_supported, Hin|].
    unfold primitive_ms. destruct (_ =? _); auto.
Qed.

Lemma accepted_primitives_have_a_duration_witness :
  Forall (fun e =>
            exists d,
              getPrimitiveDuration (CompositeEffect.primitive e)
              = (ok, Some d) /\ (d = 0 \/ d = 100))
    [CompositeEffect.mk 10 CompositePrimitive.NOOP f_half;
     CompositeEffect.mk 0 CompositePrimitive.LOW_TICK f_one].
Proof.
  apply (proj2 (accepted_primitives_have_a_duration
                  [CompositeEffect.mk 10 CompositePrimitive.NOOP f_half;
                   CompositeEffect.mk 0 CompositePrimitive.LOW_TICK f_one]
                  None [])).
  reflexivity.
Defined.

Lemma sleep_total_app (l1 l2 : list ThreadOp) :
  sleep_total (l1 ++ l2) = sleep_total l1 + sleep_total l2.
Proof.
  induction l1 as [|op l1 IH]; simpl; [reflexivity|].
  destruct op; rewrite IH; lia.
Qed.

Lemma sleep_total_notify (callback : option IVibratorCallback) :
  sleep_total (notify callback) = 0.
Proof. destruct callback; reflexivity. Qed.

Lemma uint32_small (z : Z) : 0 <= z < 2 ^ 32 -> uint32 z = z.
Proof. intros H. unfold uint32. apply Z.mod_small. exact H. Qed.

Lemma primitive_ms_range (p : CompositePrimitive.t) :
  0 <= primitive_ms p <= 100.
Proof. unfold primitive_ms. destruct (_ =? _); lia. Qed.

Lemma compose_play_sleep (e : CompositeEffect.t) :
  compose_entry_passes e ->
  0 <= CompositeEffect.delayMs e ->
  sleep_total (compose_play e)
  = 1000 * (CompositeEffect.delayMs e
            + primitive_ms (CompositeEffect.primitive e)).
Proof.
  intros (Hd & _ & _ & Hin) H0. unfold compose_play.
  rewrite (getPrimitiveDuration_supported _ Hin). simpl snd.
  pose proof (primitive_ms_range (CompositeEffect.primitive e)) as Hp.
  unfold COMPOSE_DELAY_MAX_MS in Hd.
  rewrite sleep_total_app.
  assert (Hdur : sleep_total
                   [Usleep (uint32 (primitive_ms (CompositeEffect.primitive e)
                                    * 1000))]
                 = 1000 * primitive_ms (CompositeEffect.primitive e)).
  { unfold sleep_total. simpl fold_right. rewrite uint32_small; lia. }
  rewrite Hdur.
  destruct (Z.eqb_spec (CompositeEffect.delayMs e) 0) as [E|E]; simpl negb.
  - rewrite E. simpl. lia.
  - unfold sleep_total at 1. simpl fold_right. rewrite uint32_small; lia.
Qed.

(** X9.  For an accepted composition without negative delays, the playback
    thread sleeps in total 1000 microseconds per millisecond of delay and of
    primitive duration (none of its [usleep] arguments wraps), which is at
    most 281.6 seconds, and it notifies the callback, if any, after the last
    sleep. *)
Theorem compose_thread_sleeps_the_requested_time
    (composite : list CompositeEffect.t)
    (callback : option IVibratorCallback) (w : World) (kEffectMillis : Z) :
  fst (compose composite callback w) = ok ->
  Forall (fun e => 0 <= CompositeEffect.delayMs e) composite ->
  snd (compose composite callback w)
  = w ++ [Detach (ComposeThread composite callback)]
  /\ thread_body kEffectMillis (ComposeThread composite callback)
     = flat_map compose_play composite ++ notify callback
  /\ Forall is_Usleep (flat_map compose_play composite)
  /\ sleep_total (thread_body kEffectMillis (ComposeThread composite callback))
     = 1000 * compose_ms composite
  /\ 0 <= compose_ms composite <= 281600.
Proof.
  intros Hok Hpos.
  unfold compose in *.
  destruct (size composite >? COMPOSE_SIZE_MAX) eqn:Es; [discriminate|].
  rewrite Z.gtb_ltb in Es. apply Z.ltb_ge in Es.
  destruct (compose_loop_result composite) as [[H Hl] | [H [code Hl]]];
    rewrite Hl in *; [|discriminate].
  clear Hok Hl. split; [reflexivity|]. split; [reflexivity|].
  assert (Hall : Forall is_Usleep (flat_map compose_play composite)
                 /\ sleep_total (flat_map compose_play composite)
                    = 1000 * compose_ms composite
                 /\ 0 <= compose_ms composite <= 1100 * size composite).
  { clear Es. unfold size.
    induction composite as [|e l IH]; simpl flat_map; simpl compose_ms.
    - repeat split; [constructor | simpl; lia | simpl; lia].
    - inversion H as [|? ? He Hl]; subst.
      inversion Hpos as [|? ? Hp Hpl]; subst.
      destruct (IH Hpl Hl) as (IH1 & IH2 & IH3).
      rewrite sleep_total_app, IH2, (compose_play_sleep e He Hp).
      pose proof (primitive_ms_range (CompositeEffect.primitive e)).
      destruct He as (Hd & _). unfold COMPOSE_DELAY_MAX_MS in Hd.
      rewrite length_cons, Nat2Z.inj_succ.
      repeat split; try lia.
      apply Forall_app. split; [|exact IH1].
      unfold compose_play. apply Forall_app. split.
      + destruct (negb _); repeat constructor.
      + repeat constructor. }
  destruct Hall as (Hu & Hs & Hb).
  split; [exact Hu|]. split.
  - simpl thread_body. rewrite sleep_total_app, sleep_total_notify, Hs. lia.
  - unfold COMPOSE_SIZE_MAX in Es. lia.
Qed.

Lemma compose_thread_sleeps_the_requested_time_witness :
  sleep_total
    (thread_body 100
       (ComposeThread
          [CompositeEffect.mk 10 CompositePrimitive.NOOP f_half;
           CompositeEffect.mk 0 CompositePrimitive.LOW_TICK f_one]
          (Some 7%nat)))
  = 1000 * compose_ms
             [CompositeEffect.mk 10 CompositePrimitive.NOOP f_half;
              CompositeEffect.mk 0 CompositePrimitive.LOW_TICK f_one].
Proof.
  refine (proj1 (proj2 (proj2 (proj2
    (compose_thread_sleeps_the_requested_time
       [CompositeEffect.mk 10 CompositePrimitive.NOOP f_half;
        CompositeEffect.mk 0 CompositePrimitive.LOW_TICK f_one]
       (Some 7%nat) [] 100 _ _))))).
  - reflexivity.
  - repeat constructor; vm_compute; discriminate.
Defined.

(** X10.  A negative [delayMs] is not rejected: an entry that passes the
    checks with [-2147483 <= delayMs < 0] makes the playback thread sleep
    [2^32 + 1000 * delayMs] microseconds, more than 35 minutes, before the
    primitive. *)
Theorem compose_negative_delay_sleeps_long
    (e : CompositeEffect.t) (callback : option IVibratorCallback) (w : World) :
  compose_entry_passes e ->
  -2147483 <= CompositeEffect.delayMs e < 0 ->
  fst (compose [e] callback w) = ok
  /\ compose_play e
     = [Usleep (2 ^ 32 + 1000 * CompositeEffect.delayMs e);
        Usleep (1000 * primitive_ms (CompositeEffect.primitive e))]
  /\ 2147484296 <= 2 ^ 32 + 1000 * CompositeEffect.delayMs e.
Proof.
  intros He Hd. split; [|split; [|lia]].
  - unfold compose. simpl size.
    destruct (compose_check_result e) as [[_ Hc] | [Hn _]]; [|contradiction].
    simpl. rewrite Hc. reflexivity.
  - destruct He as (_ & _ & _ & Hin). unfold compose_play.
    rewrite (getPrimitiveDuration_supported _ Hin). simpl snd.
    pose proof (primitive_ms_range (CompositeEffect.primitive e)) as Hp.
    destruct (Z.eqb_spec (CompositeEffect.delayMs e) 0) as [E|E]; [lia|].
    simpl negb. cbv iota. simpl app.
    f_equal; [f_equal | f_equal; f_equal].
    + unfold uint32.
      rewrite <- (Z.mod_add _ 1 (2 ^ 32)) by lia.
      rewrite Z.mod_small; lia.
    + rewrite uint32_small; lia.
Qed.

Lemma compose_negative_delay_sleeps_long_witness :
  compose_play (CompositeEffect.mk (-1) CompositePrimitive.CLICK f_one)
  = [Usleep (2 ^ 32 + 1000 * (-1)); Usleep (1000 * 100)].
Proof.
  refine (proj1 (proj2
    (compose_negative_delay_sleeps_long
       (CompositeEffect.mk (-1) CompositePrimitive.CLICK f_one) None [] _ _))).
  - unfold compose_entry_passes.
    split; [vm_compute; discriminate|].
    split; [reflexivity|]. split; [reflexivity|].
    right. left. reflexivity.
  - simpl. lia.
Defined.

(** ** PWLE compositions: validation *)

Lemma segment_result (st : PwleState) (e : PrimitivePwle) :
  (pwle_segment_passes e
   /\ exists st', composePwle_segment st e = Next st')
  \/ (~ pwle_segment_passes e
      /\ composePwle_segment st e
         = Return (fromExceptionCode EX_ILLEGAL_ARGUMENT)).
Proof.
  destruct e as [a|b]; unfold composePwle_segment, pwle_segment_passes.
  - destruct ((ActivePwle.duration a <? 0)
              || (ActivePwle.duration a
                  >? COMPOSE_PWLE_PRIMITIVE_DURATION_MAX_MS)) eqn:Ed.
    { right. split; [|reflexivity]. intros (Hd & _).
      apply orb_true_iff in Ed as [Ed | Ed].
      - apply Z.ltb_lt in Ed. lia.
      - rewrite Z.gtb_ltb in Ed. apply Z.ltb_lt in Ed. lia. }
    apply orb_false_elim in Ed as [Ed1 Ed2].
    apply Z.ltb_ge in Ed1. rewrite Z.gtb_ltb in Ed2. apply Z.ltb_ge in Ed2.
    destruct (flt (ActivePwle.startAmplitude a) PWLE_LEVEL_MIN
              || fgt (ActivePwle.startAmplitude a) PWLE_LEVEL_MAX
              || flt (ActivePwle.endAmplitude a) PWLE_LEVEL_MIN
              || fgt (ActivePwle.endAmplitude a) PWLE_LEVEL_MAX) eqn:Ea.
    { right. split; [|reflexivity].
      intros (_ & H1 & H2 & H3 & H4 & _).
      rewrite H1, H2, H3, H4 in Ea. discriminate Ea. }
    destruct (flt (ActivePwle.startFrequency a) PWLE_FREQUENCY_MIN_HZ
              || fgt (ActivePwle.startFrequency a) PWLE_FREQUENCY_MAX_HZ
              || flt (ActivePwle.endFrequency a) PWLE_FREQUENCY_MIN_HZ
              || fgt (ActivePwle.endFrequency a) PWLE_FREQUENCY_MAX_HZ) eqn:Ef.
    { right. split; [|reflexivity].
      intros (_ & _ & _ & _ & _ & H1 & H2 & H3 & H4).
      rewrite H1, H2, H3, H4 in Ef. discriminate Ef. }
    left.
    apply orb_false_elim in Ea as [Ea Ea4].
    apply orb_false_elim in Ea as [Ea Ea3].
    apply orb_false_elim in Ea as [Ea1 Ea2].
    apply orb_false_elim in Ef as [Ef Ef4].
    apply orb_false_elim in Ef as [Ef Ef3].
    apply orb_false_elim in Ef as [Ef1 Ef2].
    split; [repeat split; assumption|].
    destruct (negb (continues st a)); eexists; reflexivity.
  - destruct (BrakingPwle.braking b >? Braking.CLAB) eqn:Eb.
    { right. split; [|reflexivity]. intros (Hb & _).
      rewrite Z.gtb_ltb in Eb. apply Z.ltb_lt in Eb. lia. }
    rewrite Z.gtb_ltb in Eb. apply Z.ltb_ge in Eb.
    destruct (BrakingPwle.duration b
              >? COMPOSE_PWLE_PRIMITIVE_DURATION_MAX_MS) eqn:Ed.
    { right. split; [|reflexivity]. intros (_ & Hd).
      rewrite Z.gtb_ltb in Ed. apply Z.ltb_lt in Ed. lia. }
    rewrite Z.gtb_ltb in Ed. apply Z.ltb_ge in Ed.
    left. split; [split; assumption|]. eexists; reflexivity.
Qed.

Lemma loop_result (composite : list PrimitivePwle) :
  forall st,
    (Forall pwle_segment_passes composite
     /\ exists st', for_each composePwle_segment st composite = Next st')
    \/ (~ Forall pwle_segment_passes composite
        /\ for_each composePwle_segment st composite
           = Return (fromExceptionCode EX_ILLEGAL_ARGUMENT)).
Proof.
  induction composite as [|e l IH]; intros st.
  - left. split; [constructor | eexists; reflexivity].
  - rewrite for_each_cons.
    destruct (segment_result st e) as [[He [st1 ->]] | [He ->]]; simpl.
    + destruct (IH st1) as [[Hl [st' ->]] | [Hl ->]].
      * left. split; [constructor; assumption | eexists; reflexivity].
      * right. split; [|reflexivity]. intros H. inversion H. contradiction.
    + right. split; [|reflexivity]. intros H. inversion H. contradiction.
Qed.

(** The two possible outcomes of [composePwle]. *)
Lemma composePwle_result (composite : list PrimitivePwle)
    (callback : option IVibratorCallback) (w : World) :
  (1 <= size composite <= COMPOSE_PWLE_SIZE_MAX
   /\ Forall pwle_segment_passes composite
   /\ composePwle composite callback w
      = (ok, w ++ [Detach (ComposePwleThread
                             (uint32 (declared_total composite)) callback)]))
  \/ (~ (1 <= size composite <= COMPOSE_PWLE_SIZE_MAX
         /\ Forall pwle_segment_passes composite)
      /\ composePwle composite callback w
         = (fromExceptionCode EX_ILLEGAL_ARGUMENT, w)).
Proof.
  unfold composePwle, getPwleCompositionSizeMax.
  destruct (size composite <=? 0) eqn:E0; simpl orb.
  { right. apply Z.leb_le in E0. split; [lia | reflexivity]. }
  apply Z.leb_gt in E0.
  destruct (size composite >? COMPOSE_PWLE_SIZE_MAX) eqn:E1.
  { right. rewrite Z.gtb_ltb in E1. apply Z.ltb_lt in E1.
    split; [lia | reflexivity]. }
  rewrite Z.gtb_ltb in E1. apply Z.ltb_ge in E1.
  unfold composePwle_loop.
  destruct (loop_result composite pwle_start) as [[H [st Hst]] | [H Hst]];
    rewrite Hst.
  - left. split; [lia|]. split; [exact H|].
    pose proof (composePwle_loop_total composite st Hst) as [-> _].
    reflexivity.
  - right. split; [tauto | reflexivity].
Qed.

(** X11.  [composePwle] succeeds exactly when the composition has 1 to 127
    segments and no test fires on any of them: an active segment needs a
    duration in [[0, 16383]], amplitudes that compare neither below 0 nor
    above 1 and frequencies that compare neither below 140 nor above 160
    (NaN passes); a braking segment needs a type at most CLAB and a
    duration at most 16383, with no lower bound on either. *)
Theorem composePwle_ok_iff (composite : list PrimitivePwle)
    (callback : option IVibratorCallback) (w : World) :
  fst (composePwle composite callback w) = ok
  <-> 1 <= size composite <= COMPOSE_PWLE_SIZE_MAX
      /\ Forall pwle_segment_passes composite.
Proof.
  destruct (composePwle_result composite callback w)
    as [(Hs & Hf & ->) | (Hn & ->)]; simpl.
  - tauto.
  - split; [discriminate | tauto].
Qed.

(** X12.  The only error [composePwle] returns is [EX_ILLEGAL_ARGUMENT],
    also for a braking type above CLAB; when it succeeds it appends exactly
    one detached thread to the trace. *)
Theorem composePwle_only_error_is_illegal_argument
    (composite : list PrimitivePwle) (callback : option IVibratorCallback)
    (w : World) :
  composePwle composite callback w
  = (fromExceptionCode EX_ILLEGAL_ARGUMENT, w)
  \/ exists total,
       composePwle composite callback w
       = (ok, w ++ [Detach (ComposePwleThread total callback)]).
Proof.
  destruct (composePwle_result composite callback w)
    as [(_ & _ & H) | (_ & H)]; [right; eauto | left; exact H].
Qed.

Lemma declared_total_Permutation (c c' : list PrimitivePwle) :
  Permutation c c' -> declared_total c = declared_total c'.
Proof.
  induction 1 as [|x l l' _ IH|x y l|l l' l'' _ IH1 _ IH2]; simpl.
  - reflexivity.
  - rewrite IH. reflexivity.
  - lia.
  - congruence.
Qed.

(** X13.  The result of [composePwle] (status, and duration captured by the
    completion thread) does not depend on the order of the segments. *)
Theorem composePwle_ignores_segment_order
    (c c' : list PrimitivePwle) (callback : option IVibratorCallback)
    (w : World) :
  Permutation c c' ->
  composePwle c callback w = composePwle c' callback w.
Proof.
  intros HP.
  assert (Hsz : size c = size c')
    by (unfold size; rewrite (Permutation_length HP); reflexivity).
  assert (HF : Forall pwle_segment_passes c
               <-> Forall pwle_segment_passes c').
  { split; intros H.
    - exact (Permutation_Forall HP H).
    - exact (Permutation_Forall (Permutation_sym HP) H). }
  pose proof (declared_total_Permutation c c' HP) as Ht.
  destruct (composePwle_result c callback w)
    as [(Hs & Hf & ->) | (Hn & ->)];
    destruct (composePwle_result c' callback w)
      as [(Hs' & Hf' & ->) | (Hn' & ->)].
  - rewrite Ht. reflexivity.
  - exfalso. apply Hn'. rewrite <- Hsz. tauto.
  - exfalso. apply Hn. rewrite Hsz. tauto.
  - reflexivity.
Qed.

Lemma composePwle_ignores_segment_order_witness :
  composePwle [active example_active; braking example_braking] None []
  = composePwle [braking example_braking; active example_active] None [].
Proof.
  apply (composePwle_ignores_segment_order
           [active example_active; braking example_braking]
           [braking example_braking; active example_active] None []).
  apply perm_swap.
Defined.

(** ** PWLE compositions: the command *)

Lemma put_app {T : Type} `{Insertable T} (o : ostringstream) (x : T) :
  o << x = o ++ [inserted x].
Proof. reflexivity. Qed.

Lemma constructActiveSegment_app (o : ostringstream) (i d : Z) (a f : float) :
  constructActiveSegment o i d a f = o ++ constructActiveSegment [] i d a f.
Proof.
  unfold constructActiveSegment, constructActiveDefaults.
  rewrite !put_app, <- !app_assoc. reflexivity.
Qed.

Lemma constructBrakingSegment_app (o : ostringstream) (i d : Z)
    (b : Braking.t) :
  constructBrakingSegment o i d b = o ++ constructBrakingSegment [] i d b.
Proof.
  unfold constructBrakingSegment.
  rewrite !put_app, <- !app_assoc. reflexivity.
Qed.

Lemma token_indices_app (o l : ostringstream) :
  (exists k l', l = InsStr k :: l') ->
  token_indices (o ++ l) = token_indices o ++ token_indices l.
Proof.
  intros (k & l' & ->).
  induction o as [|x o IH]; [reflexivity|].
  destruct x as [k1|n1|f1]; [|exact IH|exact IH].
  destruct o as [|[k2|n2|f2] o']; [reflexivity|exact IH| |exact IH].
  change (token_indices ((InsStr k1 :: InsInt n2 :: o') ++ InsStr k :: l'))
    with (if String.eqb k1 ",T"
          then n2 :: token_indices ((InsInt n2 :: o') ++ InsStr k :: l')
          else token_indices ((InsInt n2 :: o') ++ InsStr k :: l')).
  change (token_indices (InsStr k1 :: InsInt n2 :: o'))
    with (if String.eqb k1 ",T"
          then n2 :: token_indices (InsInt n2 :: o')
          else token_indices (InsInt n2 :: o')).
  rewrite IH. destruct (String.eqb k1 ",T"); reflexivity.
Qed.

Lemma token_indices_active (o : ostringstream) (i d : Z) (a f : float) :
  token_indices (constructActiveSegment o i d a f) = token_indices o ++ [i].
Proof.
  rewrite constructActiveSegment_app, token_indices_app; [reflexivity|].
  eexists; eexists; reflexivity.
Qed.

Lemma token_indices_braking (o : ostringstream) (i d : Z) (b : Braking.t) :
  token_indices (constructBrakingSegment o i d b) = token_indices o ++ [i].
Proof.
  rewrite constructBrakingSegment_app, token_indices_app; [reflexivity|].
  eexists; eexists; reflexivity.
Qed.

Lemma upto_succ (n : Z) : 0 <= n -> upto (n + 1) = upto n ++ [n].
Proof.
  intros Hn. unfold upto.
  replace (Z.to_nat (n + 1)) with (S (Z.to_nat n)) by lia.
  rewrite seq_S, map_app. simpl. rewrite Z2Nat.id by exact Hn. reflexivity.
Qed.

Lemma segment_token_indices (st : PwleState) (e : PrimitivePwle)
    (st' : PwleState) :
  composePwle_segment st e = Next st' ->
  0 <= segmentIdx st ->
  token_indices (pwleBuilder st) = upto (segmentIdx st) ->
  0 <= segmentIdx st'
  /\ token_indices (pwleBuilder st') = upto (segmentIdx st').
Proof.
  intros H H0 Hinv. destruct e as [a|b].
  - apply active_step in H as (Hem & _). unfold emits_active in Hem.
    destruct (continues st a); destruct Hem as [-> ->].
    + split; [lia|]. rewrite token_indices_active, Hinv, upto_succ by lia.
      reflexivity.
    + split; [lia|].
      rewrite !token_indices_active, Hinv.
      replace (segmentIdx st + 2) with (segmentIdx st + 1 + 1) by lia.
      rewrite (upto_succ (segmentIdx st + 1)), (upto_succ (segmentIdx st))
        by lia.
      reflexivity.
  - apply braking_step in H as ((-> & -> & _) & _).
    split; [lia|].
    rewrite !token_indices_braking, Hinv.
    replace (segmentIdx st + 2) with (segmentIdx st + 1 + 1) by lia.
    rewrite (upto_succ (segmentIdx st + 1)), (upto_succ (segmentIdx st))
      by lia.
    reflexivity.
Qed.

(** X14.  In the command built for an accepted composition, the segment
    indices of the tokens are 0, 1, 2, ... in order of emission, without gap
    or repetition, up to the final segment index minus one. *)
Theorem composePwle_token_indices_are_contiguous
    (composite : list PrimitivePwle) (st : PwleState) :
  composePwle_loop composite = Next st ->
  token_indices (pwleBuilder st) = upto (segmentIdx st).
Proof.
  unfold composePwle_loop.
  assert (Hgen : forall l st0 st1,
             for_each composePwle_segment st0 l = Next st1 ->
             0 <= segmentIdx st0 ->
             token_indices (pwleBuilder st0) = upto (segmentIdx st0) ->
             token_indices (pwleBuilder st1) = upto (segmentIdx st1)).
  { induction l as [|e l IH]; intros st0 st1.
    - simpl. intros [= <-] _ H. exact H.
    - rewrite for_each_cons.
      destruct (composePwle_segment st0 e) as [st2|s] eqn:E; simpl;
        [|discriminate].
      intros Hl H0 Hinv.
      destruct (segment_token_indices _ _ _ E H0 Hinv) as [H2 Hinv2].
      exact (IH _ _ Hl H2 Hinv2). }
  intros H. apply (Hgen _ _ _ H); [simpl; lia | reflexivity].
Qed.

Lemma composePwle_token_indices_are_contiguous_witness :
  exists st,
    composePwle_loop example_pwle = Next st
    /\ token_indices (pwleBuilder st) = upto (segmentIdx st).
Proof.
  assert (H : exists st, composePwle_loop example_pwle = Next st)
    by (eexists; vm_compute; reflexivity).
  destruct H as [st H]. exists st. split; [exact H|].
  exact (composePwle_token_indices_are_contiguous example_pwle st H).
Defined.

Lemma continuations_bounds (l : list PrimitivePwle) :
  forall prev, 0 <= continuations prev l <= size l.
Proof.
  unfold size. induction l as [|e l IH]; intros prev; simpl continuations.
  - simpl. lia.
  - rewrite length_cons, Nat2Z.inj_succ.
    destruct e as [a|b].
    + specialize (IH (Some a)).
      destruct prev as [p|]; [destruct (joins p a)|]; lia.
    + specialize (IH None). lia.
Qed.

Lemma loop_token_count (l : list PrimitivePwle) :
  forall prev st st',
    tracks prev st ->
    for_each composePwle_segment st l = Next st' ->
    segmentIdx st' = segmentIdx st + 2 * size l - continuations prev l.
Proof.
  unfold size. induction l as [|e l IH]; intros prev st st' Htr.
  - simpl. intros [= <-]. lia.
  - rewrite for_each_cons.
    destruct (composePwle_segment st e) as [st1|s] eqn:E; simpl flow_bind;
      [|discriminate].
    intros Hl. rewrite length_cons, Nat2Z.inj_succ.
    destruct e as [a|b]; simpl continuations.
    + apply active_step in E as (Hem & HpA & HpF & _ & Hlvl & _).
      rewrite (IH (Some a) st1 st' (conj HpA HpF) Hl).
      unfold emits_active in Hem.
      destruct prev as [p|]; simpl in Htr.
      * destruct Htr as [HtA HtF].
        assert (Hc : continues st a = joins p a)
          by (unfold continues, joins; rewrite HtA, HtF; reflexivity).
        rewrite Hc in Hem.
        destruct (joins p a); destruct Hem as [_ ->]; lia.
      * assert (Hc : continues st a = false).
        { unfold continues. rewrite Htr, (level_not_sentinel _ Hlvl).
          reflexivity. }
        rewrite Hc in Hem. destruct Hem as [_ ->]. lia.
    + apply braking_step in E as ((_ & Hidx & HpA & _) & _).
      rewrite (IH None st1 st' HpA Hl). lia.
Qed.

(** X15.  For an accepted composition of [n] segments the number of tokens
    is [2 n] minus the number of active segments that start exactly where
    the active segment just before them ends.  It is therefore at least
    [n + 1] (the first segment always takes two tokens) and at most [2 n],
    hence at most 254. *)
Theorem composePwle_token_count
    (composite : list PrimitivePwle) (st : PwleState) :
  composePwle_loop composite = Next st ->
  segmentIdx st = 2 * size composite - continuations None composite
  /\ (composite <> [] -> size composite + 1 <= segmentIdx st)
  /\ segmentIdx st <= 2 * size composite.
Proof.
  unfold composePwle_loop. intros H.
  pose proof (loop_token_count composite None pwle_start st eq_refl H) as Hc.
  simpl segmentIdx in Hc.
  pose proof (continuations_bounds composite None) as Hb.
  split; [lia|]. split; [|lia].
  intros Hne. destruct composite as [|e l]; [contradiction|].
  unfold size in *. rewrite length_cons, Nat2Z.inj_succ in *.
  simpl continuations in Hc.
  destruct e as [a|b].
  - pose proof (continuations_bounds l (Some a)). unfold size in *. lia.
  - pose proof (continuations_bounds l None). unfold size in *. lia.
Qed.

Lemma composePwle_token_count_witness :
  exists st,
    composePwle_loop [active example_active; active example_follow] = Next st
    /\ segmentIdx st
       = 2 * size [active example_active; active example_follow]
         - continuations None [active example_active; active example_follow].
Proof.
  assert (H : exists st,
             composePwle_loop [active example_active; active example_follow]
             = Next st)
    by (eexists; vm_compute; reflexivity).
  destruct H as [st H]. exists st. split; [exact H|].
  exact (proj1 (composePwle_token_count
                  [active example_active; active example_follow] st H)).
Defined.

Lemma loop_builder_extends (l : list PrimitivePwle) :
  forall st st',
    for_each composePwle_segment st l = Next st' ->
    exists suffix, pwleBuilder st' = pwleBuilder st ++ suffix.
Proof.
  induction l as [|e l IH]; intros st st'.
  - simpl. intros [= <-]. exists []. symmetry. apply app_nil_r.
  - rewrite for_each_cons.
    destruct (composePwle_segment st e) as [st1|s] eqn:E; simpl;
      [|discriminate].
    intros Hl. destruct (IH _ _ Hl) as [suffix ->].
    destruct e as [a|b].
    + apply active_step in E as (Hem & _). unfold emits_active in Hem.
      destruct (continues st a); destruct Hem as [-> _].
      * rewrite constructActiveSegment_app, <- app_assoc. eauto.
      * rewrite constructActiveSegment_app,
          (constructActiveSegment_app (pwleBuilder st)), <- !app_assoc.
        eauto.
    + apply braking_step in E as ((-> & _) & _).
      rewrite constructBrakingSegment_app,
        (constructBrakingSegment_app (pwleBuilder st)), <- !app_assoc.
      eauto.
Qed.

(** X16.  The command is built by appending only: when a composition is
    accepted, so is each of its prefixes, and the command of the prefix is a
    prefix of the command of the whole; the segment index and token
    sequence of the prefix are never revised by later segments. *)
Theorem composePwle_command_extends_prefix_command
    (pre post : list PrimitivePwle) (final : PwleState) :
  composePwle_loop (pre ++ post) = Next final ->
  exists st suffix,
    composePwle_loop pre = Next st
    /\ for_each composePwle_segment st post = Next final
    /\ pwleBuilder final = pwleBuilder st ++ suffix
    /\ segmentIdx st <= segmentIdx final.
Proof.
  unfold composePwle_loop. rewrite for_each_app.
  destruct (for_each composePwle_segment pwle_start pre) as [st|s] eqn:E;
    simpl; [|discriminate].
  intros Hpost.
  destruct (loop_builder_extends _ _ _ Hpost) as [suffix Hs].
  exists st, suffix. repeat split; try assumption.
  assert (Hr : 0 <= totalDuration st < 2 ^ 32).
  { pose proof (composePwle_loop_total pre st E) as [-> _].
    unfold uint32. apply Z.mod_pos_bound. lia. }
  pose proof (loop_total post st final Hr Hpost) as [_ Hi]. lia.
Qed.

Lemma composePwle_command_extends_prefix_command_witness :
  exists final st suffix,
    composePwle_loop ([active example_active] ++ [braking example_braking])
    = Next final
    /\ composePwle_loop [active example_active] = Next st
    /\ pwleBuilder final = pwleBuilder st ++ suffix.
Proof.
  assert (H : exists final,
             composePwle_loop
               ([active example_active] ++ [braking example_braking])
             = Next final)
    by (eexists; vm_compute; reflexivity).
  destruct H as [final H].
  destruct (composePwle_command_extends_prefix_command
              [active example_active] [braking example_braking] final H)
    as (st & suffix & H1 & _ & H2 & _).
  exists final, st, suffix. auto.
Defined.

(** ** Completion threads *)

(** X17.  For an accepted PWLE composition in which no braking segment
    declares a negative duration, the completion thread sleeps exactly 1000
    microseconds per declared millisecond (the 32-bit product does not
    wrap), then notifies the callback if there is one. *)
Theorem composePwle_thread_sleeps_the_declared_total
    (composite : list PrimitivePwle) (callback : option IVibratorCallback)
    (w : World) (kEffectMillis : Z) :
  fst (composePwle composite callback w) = ok ->
  Forall (fun e => 0 <= pwle_duration e) composite ->
  exists t,
    snd (composePwle composite callback w) = w ++ [Detach t]
    /\ thread_body kEffectMillis t
       = Usleep (1000 * declared_total composite) :: notify callback
    /\ 0 <= 1000 * declared_total composite < 2 ^ 32.
Proof.
  intros Hok Hpos.
  destruct (composePwle_result composite callback w)
    as [(Hs & Hf & Heq) | (_ & Heq)];
    rewrite Heq in *; [|discriminate].
  assert (Hb : 0 <= declared_total composite
               <= COMPOSE_PWLE_PRIMITIVE_DURATION_MAX_MS * size composite).
  { apply declared_total_bounds.
    rewrite Forall_forall in *. intros e He.
    specialize (Hf e He). specialize (Hpos e He).
    destruct e as [a|b]; simpl in *; lia. }
  unfold COMPOSE_PWLE_PRIMITIVE_DURATION_MAX_MS, COMPOSE_PWLE_SIZE_MAX in *.
  eexists. split; [reflexivity|]. split; [|lia].
  simpl thread_body.
  rewrite (uint32_small (declared_total composite)) by lia.
  rewrite uint32_small by lia.
  f_equal. f_equal. lia.
Qed.

Lemma composePwle_thread_sleeps_the_declared_total_witness :
  exists t,
    snd (composePwle example_pwle (Some 7%nat) []) = [] ++ [Detach t]
    /\ thread_body 100 t
       = Usleep (1000 * declared_total example_pwle) :: notify (Some 7%nat)
    /\ 0 <= 1000 * declared_total example_pwle < 2 ^ 32.
Proof.
  apply (composePwle_thread_sleeps_the_declared_total
           example_pwle (Some 7%nat) [] 100).
  - reflexivity.
  - repeat constructor; vm_compute; discriminate.
Defined.

(** X18.  Whatever thread the HAL detaches, its body is a sequence of
    sleeps followed by one notification of the callback it holds, or by
    nothing when it holds none: the callback is never notified before the
    last sleep nor more than once. *)
Theorem thread_body_sleeps_then_notifies (kEffectMillis : Z) (t : Thread) :
  exists sleeps,
    thread_body kEffectMillis t = sleeps ++ notify (thread_callback t)
    /\ Forall is_Usleep sleeps.
Proof.
  destruct t as [ms cb | cb | l callback | d callback]; simpl.
  - exists [Usleep (uint32 (ms * 1000))]. split; [reflexivity|].
    repeat constructor.
  - exists [Usleep (uint32 (kEffectMillis * 1000))]. split; [reflexivity|].
    repeat constructor.
  - exists (flat_map compose_play l). split; [reflexivity|].
    induction l as [|e l IH]; simpl; [constructor|].
    apply Forall_app. split; [|exact IH].
    unfold compose_play. apply Forall_app. split.
    + destruct (negb _); repeat constructor.
    + repeat constructor.
  - exists [Usleep (uint32 (d * 1000))]. split; [reflexivity|].
    repeat constructor.
Qed.

(** ** Frequency control *)

(** X19.  [getBandwidthAmplitudeMap] never returns a map: the capabilities
    reported by [getCapabilities] do not include [CAP_FREQUENCY_CONTROL], so
    the call always ends in [EX_UNSUPPORTED_OPERATION]. *)
Theorem getBandwidthAmplitudeMap_is_unsupported :
  Z.land getCapabilities IVibrator.CAP_FREQUENCY_CONTROL = 0
  /\ getBandwidthAmplitudeMap
     = (fromExceptionCode EX_UNSUPPORTED_OPERATION, None).
Proof. split; reflexivity. Qed.

(** The vector that the guarded branch would build has 21 entries, 1.0 in
    the middle, and is symmetric around it. *)
Lemma bandwidthAmplitudeMap_fill_shape :
  List.length (bandwidthAmplitudeMap_fill 10) = 21%nat
  /\ vector_get (bandwidthAmplitudeMap_fill 10) 10 = PWLE_LEVEL_MAX
  /\ rev (bandwidthAmplitudeMap_fill 10) = bandwidthAmplitudeMap_fill 10.
Proof. repeat split; vm_compute; reflexivity. Qed.

(** ** Compositions and the driver *)

Lemma node_value_detach (path : string) (t : Thread) (w : World) :
  node_value path (w ++ [Detach t]) = node_value path w.
Proof. rewrite node_value_app. reflexivity. Qed.

(** X20.  Neither [compose] nor [composePwle] ever changes the content of a
    sysfs node, whether the request is accepted or not: a composition is
    timed and notified, but nothing of it reaches the driver. *)
Theorem compositions_leave_every_node_unchanged
    (path : string) (composite : list CompositeEffect.t)
    (pwle : list PrimitivePwle) (callback : option IVibratorCallback)
    (w : World) :
  node_value path (snd (compose composite callback w)) = node_value path w
  /\ node_value path (snd (composePwle pwle callback w)) = node_value path w.
Proof.
  split.
  - unfold compose.
    destruct (size composite >? COMPOSE_SIZE_MAX); [reflexivity|].
    destruct (for_each _ tt composite); simpl snd; [|reflexivity].
    apply node_value_detach.
  - destruct (composePwle_result pwle callback w)
      as [(_ & _ & ->) | (_ & ->)]; simpl snd; [|reflexivity].
    apply node_value_detach.
Qed.
